(** * A shallow embedding of [kadai.py]: a same-domain breadth-first crawler

    The source is one Python function, [crawl_same_domain], which keeps a
    FIFO frontier ([urls_to_visit]), a seen-set ([seen_urls]) and a result
    dictionary ([scraped_pages]), and talks to four libraries: [requests]
    (the HTTP transport), [bs4] (the HTML parser), [urllib.parse]
    ([urlparse], [urljoin]) and [urllib.robotparser].

    The embedding keeps the function as it is written: the loop state is a
    record threaded through a small state-and-control-flow monad, the
    libraries are the fields of a record [World], and every observable
    action (a [print], a GET, a [sleep], a queue operation) is logged in a
    trace. *)

From Stdlib Require Import ZArith NArith Lia String Ascii.
From stdpp Require Import base list gmap.

Local Open Scope Z_scope.

(** ** Python strings

    A Python [str] is a sequence of Unicode code points. *)

Module PyStr.

Abbreviation str := (list N).

(** An ASCII literal as a [str]. *)
Definition u (s : string) : str :=
  (fun a => N_of_ascii a) <$> list_ascii_of_string s.

(** [s.startswith(p)] *)
Fixpoint startswith (s p : str) {struct p} : bool :=
  match p, s with
  | [], _ => true
  | _ :: _, [] => false
  | c :: p', d :: s' => if decide (c = d) then startswith s' p' else false
  end.

(** [s.endswith(p)] *)
Definition endswith (s p : str) : bool := startswith (reverse s) (reverse p).

(** [p in s] (substring test) *)
Fixpoint contains (p s : str) : bool :=
  startswith s p ||
  match s with
  | [] => false
  | _ :: s' => contains p s'
  end.

(** [str.lower()] on the ASCII letters. Python also lower-cases the cased
    letters outside ASCII; their lower-case forms are outside ASCII again
    (but for U+212A, which gives [k], and U+0130, which gives [i] followed by
    U+0307), so that comparing the result with the suffixes of
    [EXCLUDED_EXTENSIONS] or with [text/html] gives the same answer. *)
Definition lower_char (c : N) : N :=
  if (65 <=? c)%N && (c <=? 90)%N then (c + 32)%N else c.

Definition lower (s : str) : str := lower_char <$> s.

(** The characters [str.strip()] removes: those for which [str.isspace]
    holds. *)
Definition isspace (c : N) : bool :=
  ((9 <=? c) && (c <=? 13) || (28 <=? c) && (c <=? 32) ||
   (c =? 133) || (c =? 160) || (c =? 5760) ||
   (8192 <=? c) && (c <=? 8202) || (c =? 8232) || (c =? 8233) ||
   (c =? 8239) || (c =? 8287) || (c =? 12288))%N.

Fixpoint lstrip_by (p : N -> bool) (s : str) : str :=
  match s with
  | [] => []
  | c :: s' => if p c then lstrip_by p s' else s
  end.

Definition rstrip_by (p : N -> bool) (s : str) : str :=
  reverse (lstrip_by p (reverse s)).

(** [s.strip()] *)
Definition strip (s : str) : str := rstrip_by isspace (lstrip_by isspace s).

(** [s.rstrip('/')] *)
Definition rstrip_slash (s : str) : str := rstrip_by (fun c => (c =? 47)%N) s.

(** [s.split('#')[0]] *)
Fixpoint split_hash_0 (s : str) : str :=
  match s with
  | [] => []
  | c :: s' => if (c =? 35)%N then [] else c :: split_hash_0 s'
  end.

End PyStr.

Import PyStr.

(** ** Module constants *)

Definition EXCLUDED_EXTENSIONS : list str :=
  Eval cbv in
  u <$> [ ".pdf"; ".jpg"; ".jpeg"; ".png"; ".gif"; ".svg";
          ".bmp"; ".webp"; ".tiff"; ".css"; ".js"; ".xml"; ".zip";
          ".mp4"; ".mov"; ".avi"; ".doc"; ".docx"; ".xls"; ".xlsx";
          ".ppt"; ".pptx" ]%string.

Definition USER_AGENT : str :=
  Eval cbv in
  u "Mozilla/5.0 (Windows NT 10.0; Win64; x64) AppleWebKit/537.36 (KHTML, like Gecko) Chrome/91.0.4472.124 Safari/537.36".

(** The title recorded for a page without a usable [<title>]:
    U+30BF U+30A4 U+30C8 U+30EB U+306A U+3057. *)
Definition NO_TITLE : str := [12479; 12452; 12488; 12523; 12394; 12375]%N.

(** [any(current_url.lower().endswith(ext) for ext in EXCLUDED_EXTENSIONS)] *)
Definition is_excluded (current_url : str) : bool :=
  existsb (endswith (lower current_url)) EXCLUDED_EXTENSIONS.


Definition TEXT_HTML : str := Eval cbv in u "text/html".

Definition NON_NAVIGABLE : list str :=
  Eval cbv in u <$> [ "tel:"; "mailto:"; "javascript:" ]%string.

Definition HTTP_SCHEMES : list str := Eval cbv in u <$> [ "http"; "https" ]%string.

(** [re.sub(r'', repl, s, flags=re.DOTALL)]: the empty pattern matches the
    empty string once at each of the [len(s) + 1] positions of [s], and each
    match is replaced by [repl]. *)
Definition re_sub_empty_pattern (repl s : str) : str :=
  repl ++ flat_map (fun c => c :: repl) s.

(** ** The libraries *)

(** The exceptions the source tells apart: instances of
    [requests.exceptions.RequestException], and all other instances of
    [Exception]. *)
Inductive exn :=
| RequestException (detail : str)
| OtherException (detail : str).

(** What the source reads of a [requests.Response]: [status_code],
    [headers.get('Content-Type')], and [text] once [encoding] has been set
    to [apparent_encoding]. *)
Record Response := {
  status_code : Z;
  content_type_header : option str;
  text : str }.

(** What the source reads of the parsed document: [soup.find('title')] (a
    tag, of which it reads [.string]) and the [href] values of
    [soup.find_all('a', href=True)], in document order. *)
Record Tag := { tag_string : option str }.

Record Soup := {
  find_title : option Tag;
  find_all_a_href : list str }.

(** What the source reads of a [urlparse] result. *)
Record ParseResult := { scheme : str; netloc : str }.

(** The lines the source prints. *)
Inductive Message :=
| MsgRobotsLoaded (robots_url : str)
| MsgRobotsWarning (e : exn)
| MsgCrawlStart
| MsgTargetDomain (base_domain : str)
| MsgMaxPages (max_pages : Z)
| MsgRobotsSkip (current_url : str)
| MsgProcessing (k : Z) (max_pages : Z) (current_url : str)
| MsgSkipStatus (status : Z)
| MsgSkipContentType (content_type : str)
| MsgErrorRequest (e : exn)
| MsgErrorOther (e : exn)
| MsgCrawlDone.

(** The observable actions of a run, in the order they happen. *)
Inductive Event :=
| RobotsRead (robots_url : str)         (* robot_parser.read() *)
| Print (m : Message)                   (* print(...) *)
| Popleft (current_url : str)           (* urls_to_visit.popleft() *)
| Get (current_url : str)               (* session.get(current_url, timeout=10) *)
| Parse (html : str)                    (* BeautifulSoup(html, 'html.parser') *)
| SetItem (url title : str)             (* scraped_pages[url] = title *)
| Append (normalized_url : str)         (* urls_to_visit.append(normalized_url) *)
| Sleep.                                (* time.sleep(0.5) *)

(** What [urllib.request.urlopen(robots_url)] followed by reading and
    decoding the body does inside [RobotFileParser.read]: an [HTTPError]
    (which [read] handles itself), any other exception (which [read] lets
    through), or a body, parsed into rules that answer for a user agent and
    a URL. *)
Inductive RobotsFetch :=
| ReadHTTPError (code : Z)
| ReadRaises (e : exn)
| ReadRules (rules : str -> str -> bool).

Record World := {
  (** [urllib.parse.urlparse(url)]; raises [ValueError] on some inputs *)
  urlparse : str -> exn + ParseResult;
  (** [urllib.parse.urljoin(base, url)]; raises [ValueError] on some inputs *)
  urljoin : str -> str -> exn + str;
  (** [urllib.parse.unquote(url)] *)
  unquote : str -> str;
  (** the fetch of robots.txt inside [RobotFileParser.read] *)
  urlopen_robots : str -> RobotsFetch;
  (** [session.get(url, timeout=10)] with the [User-Agent] header of the
      session; the answer may depend on everything that happened before *)
  session_get : list Event -> str -> str -> exn + Response;
  (** [BeautifulSoup(html, 'html.parser')] *)
  BeautifulSoup : str -> exn + Soup }.

(** ** [urllib.robotparser.RobotFileParser]

    The fields [can_fetch] reads. [last_checked] is a time stamp in
    Python; only whether it is non-zero matters. [entries] stands for the
    parsed rule lines together with their matching against the path of a
    URL that [urlparse] accepts. *)
Module RobotFileParser.

Record t := {
  disallow_all : bool;
  allow_all : bool;
  last_checked : bool;
  entries : str -> str -> bool }.

(** [RobotFileParser()]: no entries, so that every agent is granted access
    by the rules; nothing read yet. *)
Definition init : t :=
  {| disallow_all := false; allow_all := false; last_checked := false;
     entries := fun _ _ => true |}.

(** [read()]: the exception that escapes, if any, and the parser after the
    call. 401 and 403 set [disallow_all], the other 4xx set [allow_all], any
    other [HTTPError] changes nothing; a body is handed to [parse], which
    calls [modified()]. *)
Definition read (fetch : RobotsFetch) (p : t) : option exn * t :=
  match fetch with
  | ReadHTTPError code =>
      if (code =? 401) || (code =? 403) then
        (None, {| disallow_all := true; allow_all := allow_all p;
                  last_checked := last_checked p; entries := entries p |})
      else if (400 <=? code) && (code <? 500) then
        (None, {| disallow_all := disallow_all p; allow_all := true;
                  last_checked := last_checked p; entries := entries p |})
      else (None, p)
  | ReadRaises e => (Some e, p)
  | ReadRules rules =>
      (None, {| disallow_all := disallow_all p; allow_all := allow_all p;
                last_checked := true; entries := rules |})
  end.

(** [can_fetch(useragent, url)]: once the three flags have let the call
    through, it starts with [urlparse(unquote(url))], which raises
    [ValueError] on some inputs, and only then looks at the rules. *)
Definition can_fetch (w : World) (p : t) (useragent url : str) : exn + bool :=
  if disallow_all p then inr false
  else if allow_all p then inr true
  else if negb (last_checked p) then inr false
  else
    match urlparse w (unquote w url) with
    | inl e => inl e
    | inr _ => inr (entries p useragent url)
    end.

End RobotFileParser.

(** ** The loop state *)

(** A [dict] keeps its keys in insertion order; assigning to a key that is
    present replaces its value in place. *)
Fixpoint dict_set (k v : str) (d : list (str * str)) : list (str * str) :=
  match d with
  | [] => [(k, v)]
  | (k', v') :: d' =>
      if decide (k' = k) then (k, v) :: d' else (k', v') :: dict_set k v d'
  end.

Record State := {
  urls_to_visit : list str;            (* deque *)
  seen_urls : gset str;                (* set *)
  scraped_pages : list (str * str);    (* dict *)
  trace : list Event }.

Definition emit (e : Event) (st : State) : State :=
  {| urls_to_visit := urls_to_visit st; seen_urls := seen_urls st;
     scraped_pages := scraped_pages st; trace := trace st ++ [e] |}.

(** ** Control flow

    A statement runs on the state and ends normally, with [continue], or by
    raising; what it did to the state before stays done. *)
Inductive flow (A : Type) :=
| Normal (a : A)
| Continue
| Raise (e : exn).
Arguments Normal {A} a.
Arguments Continue {A}.
Arguments Raise {A} e.

Definition M (A : Type) : Type := State -> flow A * State.

Definition ret {A} (a : A) : M A := fun st => (Normal a, st).

Definition bind {A B} (m : M A) (k : A -> M B) : M B :=
  fun st =>
    match m st with
    | (Normal a, st') => k a st'
    | (Continue, st') => (Continue, st')
    | (Raise e, st') => (Raise e, st')
    end.

Notation "'do' x <- m ; k" := (bind m (fun x => k))
  (at level 10, x name, m at level 100, k at level 200).
Notation "m >> k" := (bind m (fun _ => k))
  (at level 100, k at level 200, right associativity).

Definition continue_ {A} : M A := fun st => (Continue, st).
Definition raise {A} (e : exn) : M A := fun st => (Raise e, st).
Definition lift {A} (r : exn + A) : M A :=
  match r with inl e => raise e | inr a => ret a end.
Definition gets {A} (f : State -> A) : M A := fun st => (Normal (f st), st).
Definition log (e : Event) : M unit := fun st => (Normal tt, emit e st).
Definition print (m : Message) : M unit := log (Print m).

(** [for x in l: body(x)]: a [continue] in the body goes on with the next
    element, an exception leaves the loop. *)
Fixpoint for_each {A} (l : list A) (body : A -> M unit) : M unit :=
  match l with
  | [] => ret tt
  | x :: l' => fun st =>
      match body x st with
      | (Raise e, st') => (Raise e, st')
      | (_, st') => for_each l' body st'
      end
  end.

(** [try: m / except RequestException as e: print(...) / except Exception
    as e: print(...)]: a [continue] inside [m] passes through. *)
Definition try_except (m : M unit) : M unit :=
  fun st =>
    match m st with
    | (Raise (RequestException d), st') =>
        print (MsgErrorRequest (RequestException d)) st'
    | (Raise (OtherException d), st') =>
        print (MsgErrorOther (OtherException d)) st'
    | r => r
    end.

(** ** The crawler *)

Section Crawler.

Variable w : World.

(** [session.get(current_url, timeout=10)] *)
Definition get (current_url : str) : M Response :=
  fun st =>
    (match session_get w (trace st) USER_AGENT current_url with
     | inl e => Raise e
     | inr response => Normal response
     end, emit (Get current_url) st).

(** [BeautifulSoup(html, 'html.parser')] *)
Definition parse (html : str) : M Soup :=
  fun st =>
    (match BeautifulSoup w html with
     | inl e => Raise e
     | inr soup => Normal soup
     end, emit (Parse html) st).

(** [urls_to_visit.popleft()]; raises [IndexError] on an empty deque. *)
Definition popleft : M str :=
  fun st =>
    match urls_to_visit st with
    | [] => (Raise (OtherException (u "pop from an empty deque")), st)
    | current_url :: rest =>
        (Normal current_url,
         {| urls_to_visit := rest; seen_urls := seen_urls st;
            scraped_pages := scraped_pages st;
            trace := trace st ++ [Popleft current_url] |})
    end.

(** [scraped_pages[current_url] = title_text] *)
Definition set_scraped (current_url title_text : str) : M unit :=
  fun st =>
    (Normal tt,
     {| urls_to_visit := urls_to_visit st; seen_urls := seen_urls st;
        scraped_pages := dict_set current_url title_text (scraped_pages st);
        trace := trace st ++ [SetItem current_url title_text] |}).

(** [seen_urls.add(normalized_url); urls_to_visit.append(normalized_url)] *)
Definition enqueue (normalized_url : str) : M unit :=
  fun st =>
    (Normal tt,
     {| urls_to_visit := urls_to_visit st ++ [normalized_url];
        seen_urls := {[normalized_url]} ∪ seen_urls st;
        scraped_pages := scraped_pages st;
        trace := trace st ++ [Append normalized_url] |}).

(** [title_tag.string.strip() if title_tag and title_tag.string else
    NO_TITLE]: a tag is always true, a string is true when it is not
    empty. *)
Definition title_text_of (title_tag : option Tag) : str :=
  match title_tag with
  | Some tag =>
      match tag_string tag with
      | Some s => match s with [] => NO_TITLE | _ :: _ => strip s end
      | None => NO_TITLE
      end
  | None => NO_TITLE
  end.

(** The body of [for a_tag in soup.find_all('a', href=True)]. *)
Definition link_body (base_domain current_url a_href : str) : M unit :=
  let href := strip a_href in
  if existsb (startswith href) NON_NAVIGABLE then continue_
  else
    do joined <- lift (urljoin w current_url href) ;
    let full_url := split_hash_0 joined in
    do parsed_full_url <- lift (urlparse w full_url) ;
    let is_same_domain :=
      bool_decide (scheme parsed_full_url ∈ HTTP_SCHEMES) &&
      bool_decide (netloc parsed_full_url = base_domain) in
    if is_same_domain then
      let normalized_url := rstrip_slash full_url in
      do seen <- gets seen_urls ;
      if bool_decide (normalized_url ∉ seen) then enqueue normalized_url
      else ret tt
    else ret tt.

(** The body of the [try] statement. *)
Definition try_body (base_domain current_url : str) : M unit :=
  do response <- get current_url ;
  if negb (status_code response =? 200) then
    print (MsgSkipStatus (status_code response)) >> continue_
  else
    let content_type := lower (default [] (content_type_header response)) in
    if negb (contains TEXT_HTML content_type) then
      print (MsgSkipContentType content_type) >> continue_
    else
      let html_content := text response in
      let html_content_cleaned := re_sub_empty_pattern [] html_content in
      do soup <- parse html_content_cleaned ;
      let title_tag := find_title soup in
      let title_text := title_text_of title_tag in
      set_scraped current_url title_text >>
      for_each (find_all_a_href soup) (link_body base_domain current_url).

(** The body of the [while] statement. The call of [can_fetch] is not
    inside the [try] statement: an exception it raises leaves the loop. *)
Definition loop_body (base_domain : str) (robot_parser : RobotFileParser.t)
    (max_pages : Z) : M unit :=
  do current_url <- popleft ;
  if is_excluded current_url then continue_
  else
    do allowed <- lift (RobotFileParser.can_fetch w robot_parser USER_AGENT
                          current_url) ;
    if negb allowed
    then print (MsgRobotsSkip current_url) >> continue_
    else
      do n <- gets (fun st => Z.of_nat (length (scraped_pages st))) ;
      print (MsgProcessing (n + 1) max_pages current_url) >>
      try_except (try_body base_domain current_url) >>
      log Sleep.

(** [urls_to_visit and len(scraped_pages) < max_pages] *)
Definition while_cond (max_pages : Z) (st : State) : bool :=
  match urls_to_visit st with
  | [] => false
  | _ :: _ => Z.of_nat (length (scraped_pages st)) <? max_pages
  end.

(** The [while] loop; [None] when [fuel] iterations were not enough. *)
Fixpoint crawl_loop (base_domain : str) (robot_parser : RobotFileParser.t)
    (max_pages : Z) (fuel : nat) (st : State) : option (flow unit * State) :=
  match fuel with
  | O => None
  | S fuel' =>
      if while_cond max_pages st then
        match loop_body base_domain robot_parser max_pages st with
        | (Raise e, st') => Some (Raise e, st')
        | (_, st') => crawl_loop base_domain robot_parser max_pages fuel' st'
        end
      else Some (Normal tt, st)
  end.

(** The robots.txt set-up: the URL, the parser after [read()] inside
    [try]/[except Exception], and what is printed. *)
Definition robots_setup (base_scheme base_domain : str)
  : RobotFileParser.t * list Event :=
  let robots_url := base_scheme ++ u "://" ++ base_domain ++ u "/robots.txt" in
  match RobotFileParser.read (urlopen_robots w robots_url) RobotFileParser.init with
  | (None, robot_parser) =>
      (robot_parser, [RobotsRead robots_url; Print (MsgRobotsLoaded robots_url)])
  | (Some e, robot_parser) =>
      (robot_parser, [RobotsRead robots_url; Print (MsgRobotsWarning e)])
  end.

(** The state on entry to the [while] loop. *)
Definition initial_state (start_url : str) (max_pages : Z)
    (parsed_uri : ParseResult) : State :=
  let base_domain := netloc parsed_uri in
  let base_scheme := scheme parsed_uri in
  let normalized_start_url := rstrip_slash start_url in
  {| urls_to_visit := [normalized_start_url];
     seen_urls := {[normalized_start_url]};
     scraped_pages := [];
     trace := (robots_setup base_scheme base_domain).2 ++
              [Print MsgCrawlStart; Print (MsgTargetDomain base_domain);
               Print (MsgMaxPages max_pages)] |}.

Definition empty_state : State :=
  {| urls_to_visit := []; seen_urls := ∅; scraped_pages := []; trace := [] |}.

(** [crawl_same_domain(start_url, max_pages)]: how the call ends (with the
    returned dictionary, or with an exception), and the final state, whose
    trace holds all that the call did. *)
Definition crawl_same_domain (fuel : nat) (start_url : str) (max_pages : Z)
  : option (flow (list (str * str)) * State) :=
  match urlparse w start_url with
  | inl e => Some (Raise e, empty_state)
  | inr parsed_uri =>
      let base_domain := netloc parsed_uri in
      let base_scheme := scheme parsed_uri in
      let robot_parser := (robots_setup base_scheme base_domain).1 in
      match crawl_loop base_domain robot_parser max_pages fuel
              (initial_state start_url max_pages parsed_uri) with
      | None => None
      | Some (Raise e, st) => Some (Raise e, st)
      | Some (_, st) =>
          Some (Normal (scraped_pages st), emit (Print MsgCrawlDone) st)
      end
  end.

End Crawler.

(** The first value bound to a key in an association list. *)
Fixpoint assoc {A} (k : str) (l : list (str * A)) : option A :=
  match l with
  | [] => None
  | (k', a) :: l' => if decide (k' = k) then Some a else assoc k l'
  end.

(** ** Reading a run off its trace *)

(** What an event does to the state: every change of the frontier, of the
    seen-set and of the dictionary is logged by the event that makes it. *)
Definition apply_event (e : Event) (st : State) : State :=
  match e with
  | Popleft _ =>
      {| urls_to_visit := tail (urls_to_visit st); seen_urls := seen_urls st;
         scraped_pages := scraped_pages st; trace := trace st ++ [e] |}
  | SetItem k v =>
      {| urls_to_visit := urls_to_visit st; seen_urls := seen_urls st;
         scraped_pages := dict_set k v (scraped_pages st);
         trace := trace st ++ [e] |}
  | Append v =>
      {| urls_to_visit := urls_to_visit st ++ [v];
         seen_urls := {[v]} ∪ seen_urls st;
         scraped_pages := scraped_pages st; trace := trace st ++ [e] |}
  | _ => emit e st
  end.

Definition run_events (es : list Event) (st : State) : State :=
  foldl (fun st e => apply_event e st) st es.

(** The URLs popped, fetched, recorded and enqueued, in order. *)
Definition pops : list Event -> list str :=
  omap (fun e => match e with Popleft x => Some x | _ => None end).
Definition fetches : list Event -> list str :=
  omap (fun e => match e with Get x => Some x | _ => None end).
Definition records : list Event -> list str :=
  omap (fun e => match e with SetItem x _ => Some x | _ => None end).
Definition appends : list Event -> list str :=
  omap (fun e => match e with Append x => Some x | _ => None end).
Definition parses : list Event -> list str :=
  omap (fun e => match e with Parse x => Some x | _ => None end).
Definition sleeps : list Event -> list unit :=
  omap (fun e => match e with Sleep => Some tt | _ => None end).

(** The line printed by the [except] clause that catches [e]. *)
Definition error_message (e : exn) : Message :=
  match e with
  | RequestException _ => MsgErrorRequest e
  | OtherException _ => MsgErrorOther e
  end.

Section Iteration.

Variable w : World.
Variable base_domain : str.
Variable robot_parser : RobotFileParser.t.
Variable max_pages : Z.

(** What one [href] leads to: an exception, nothing, or a same-domain
    normalized URL. *)
Definition link_candidate (current_url a_href : str) : exn + option str :=
  let href := strip a_href in
  if existsb (startswith href) NON_NAVIGABLE then inr None
  else
    match urljoin w current_url href with
    | inl e => inl e
    | inr joined =>
        let full_url := split_hash_0 joined in
        match urlparse w full_url with
        | inl e => inl e
        | inr parsed_full_url =>
            if bool_decide (scheme parsed_full_url ∈ HTTP_SCHEMES) &&
               bool_decide (netloc parsed_full_url = base_domain)
            then inr (Some (rstrip_slash full_url))
            else inr None
        end
    end.

(** The URLs a list of [href]s adds to the frontier, given the seen-set, and
    the exception that cut the list short, if any. *)
Fixpoint fresh_links (current_url : str) (seen : gset str) (hrefs : list str)
  : list str * option exn :=
  match hrefs with
  | [] => ([], None)
  | h :: hs =>
      match link_candidate current_url h with
      | inl e => ([], Some e)
      | inr None => fresh_links current_url seen hs
      | inr (Some v) =>
          if bool_decide (v ∉ seen) then
            let '(vs, o) := fresh_links current_url ({[v]} ∪ seen) hs in
            (v :: vs, o)
          else fresh_links current_url seen hs
      end
  end.

(** The events up to and including the GET of an iteration that reaches
    it. *)
Definition upto_get (st : State) (x : str) : list Event :=
  [Popleft x;
   Print (MsgProcessing (Z.of_nat (length (scraped_pages st)) + 1) max_pages x);
   Get x].

(** The URL passes the extension filter and the robots check. *)
Definition admitted (x : str) : Prop :=
  is_excluded x = false /\
  RobotFileParser.can_fetch w robot_parser USER_AGENT x = inr true.

(** The answer of the transport to the GET of [x] in an iteration that
    starts in [st]. *)
Definition answer (st : State) (x : str) : exn + Response :=
  session_get w
    (trace st ++
     [Popleft x;
      Print (MsgProcessing (Z.of_nat (length (scraped_pages st)) + 1) max_pages x)])
    USER_AGENT x.

(** The answer is a page: status 200 and a content type with [text/html]. *)
Definition is_page (response : Response) : Prop :=
  status_code response = 200 /\
  contains TEXT_HTML (lower (default [] (content_type_header response))) = true.

(** The ways one iteration of the [while] loop goes for the URL [x] at the
    head of the frontier, each with the events it logs. The last one leaves
    the loop with the exception of the robots check; the others go on with
    the loop. *)
Inductive iteration (st : State) (x : str) : list Event -> Prop :=
| it_excluded :
    is_excluded x = true ->
    iteration st x [Popleft x]
| it_robots :
    is_excluded x = false ->
    RobotFileParser.can_fetch w robot_parser USER_AGENT x = inr false ->
    iteration st x [Popleft x; Print (MsgRobotsSkip x)]
| it_get_failed e :
    admitted x ->
    answer st x = inl e ->
    iteration st x (upto_get st x ++ [Print (error_message e); Sleep])
| it_status response :
    admitted x ->
    answer st x = inr response ->
    status_code response <> 200 ->
    iteration st x
      (upto_get st x ++ [Print (MsgSkipStatus (status_code response))])
| it_content_type response :
    admitted x ->
    answer st x = inr response ->
    status_code response = 200 ->
    contains TEXT_HTML (lower (default [] (content_type_header response))) = false ->
    iteration st x
      (upto_get st x ++
       [Print (MsgSkipContentType (lower (default [] (content_type_header response))))])
| it_parse_failed response e :
    admitted x ->
    answer st x = inr response ->
    is_page response ->
    BeautifulSoup w (text response) = inl e ->
    iteration st x
      (upto_get st x ++ [Parse (text response); Print (error_message e); Sleep])
| it_scraped response soup vs :
    admitted x ->
    answer st x = inr response ->
    is_page response ->
    BeautifulSoup w (text response) = inr soup ->
    fresh_links x (seen_urls st) (find_all_a_href soup) = (vs, None) ->
    iteration st x
      (upto_get st x ++
       [Parse (text response); SetItem x (title_text_of (find_title soup))] ++
       (Append <$> vs) ++ [Sleep])
| it_links_failed response soup vs e :
    admitted x ->
    answer st x = inr response ->
    is_page response ->
    BeautifulSoup w (text response) = inr soup ->
    fresh_links x (seen_urls st) (find_all_a_href soup) = (vs, Some e) ->
    iteration st x
      (upto_get st x ++
       [Parse (text response); SetItem x (title_text_of (find_title soup))] ++
       (Append <$> vs) ++ [Print (error_message e); Sleep])
| it_robots_raised e :
    is_excluded x = false ->
    RobotFileParser.can_fetch w robot_parser USER_AGENT x = inl e ->
    iteration st x [Popleft x].

(** The robots check of the URL popped last raised [e]: the loop was left
    with this exception. *)
Definition robots_check_raised (st : State) (e : exn) : Prop :=
  exists t x,
    trace st = t ++ [Popleft x] /\
    is_excluded x = false /\
    RobotFileParser.can_fetch w robot_parser USER_AGENT x = inl e.

End Iteration.

(** How far an iteration got: the URL was skipped before the GET, fetched
    without being recorded, or recorded with a title. *)
Inductive kind := Skipped | Fetched | Recorded (title : str).

Definition kind_fetches (k : kind) (x : str) : list str :=
  match k with Skipped => [] | _ => [x] end.
Definition kind_records (k : kind) (x : str) : list str :=
  match k with Recorded _ => [x] | _ => [] end.
Definition kind_dict (k : kind) (x : str) (d : list (str * str)) :=
  match k with Recorded t => dict_set x t d | _ => d end.

(** The frontier invariant of the loop, for the normalized seed [seed]:
    the URLs popped so far followed by the frontier are the seed followed
    by the URLs appended, in order (the deque is FIFO); no URL was enqueued
    twice; the seen-set holds exactly the URLs ever enqueued; the fetched
    URLs are among the popped ones and the recorded URLs among the fetched
    ones, in the same order; the keys of the dictionary are the recorded
    URLs. *)
Definition frontier_inv (seed : str) (st : State) : Prop :=
  pops (trace st) ++ urls_to_visit st = seed :: appends (trace st) /\
  NoDup (seed :: appends (trace st)) /\
  (forall x, x ∈ seen_urls st <-> x ∈ seed :: appends (trace st)) /\
  fetches (trace st) `sublist_of` pops (trace st) /\
  records (trace st) `sublist_of` fetches (trace st) /\
  (scraped_pages st).*1 = records (trace st).

(** For each [popleft] and each GET of a trace, the number of assignments
    to the dictionary made before it, counting from [n]. *)
Fixpoint records_before_visits (n : nat) (es : list Event) : list nat :=
  match es with
  | [] => []
  | Popleft _ :: es' => n :: records_before_visits n es'
  | Get _ :: es' => n :: records_before_visits n es'
  | SetItem _ _ :: es' => records_before_visits (S n) es'
  | _ :: es' => records_before_visits n es'
  end.



(** The link depth at which each URL is discovered, read off the trace: the
    seed has depth 0, and a URL appended while the URL popped last is being
    processed lies one level below it. The scan keeps the depth of the URL
    popped last and the URLs discovered so far, in order, with their
    depths. *)
Definition depth_of (dm : list (str * nat)) (x : str) : nat :=
  default 0%nat (assoc x dm).

Definition depth_step (s : nat * list (str * nat)) (e : Event)
  : nat * list (str * nat) :=
  match e with
  | Popleft x => (depth_of s.2 x, s.2)
  | Append v => (s.1, s.2 ++ [(v, S s.1)])
  | _ => s
  end.

Definition depth_scan (seed : str) (es : list Event) : nat * list (str * nat) :=
  foldl depth_step (0%nat, [(seed, 0%nat)]) es.

Definition discovery (seed : str) (es : list Event) : list (str * nat) :=
  (depth_scan seed es).2.

Definition nondecreasing (l : list nat) : Prop :=
  forall i j a b, (i <= j)%nat -> l !! i = Some a -> l !! j = Some b -> (a <= b)%nat.

(** The depth invariant of the loop: the URLs discovered so far, in order,
    are the seed followed by the URLs appended; their depths do not
    decrease along that order and are at most one more than the depth of
    the URL popped last; and the depths of the URLs in the frontier do not
    decrease and start at or above the depth of the URL popped last. *)
Definition depth_inv (seed : str) (st : State) : Prop :=
  let '(cur, dm) := depth_scan seed (trace st) in
  dm.*1 = seed :: appends (trace st) /\
  nondecreasing dm.*2 /\
  (forall d, d ∈ dm.*2 -> (d <= S cur)%nat) /\
  nondecreasing (cur :: (depth_of dm <$> urls_to_visit st)).

(** The call [crawl_same_domain(start_url, max_pages)] ends with [res] in
    the state [st]: some number of iterations is enough for it. The fields
    of [World] are functions: every call of a library returns a value or
    raises, and a call that never returns ([urlopen], which [read()] calls
    without a timeout, on a server that does not answer) is outside the
    model. Under this reading every call ends, and in one way only
    ([crawl_returns], [crawl_raises], [returns_functional]). *)
Definition returns (w : World) (start_url : str) (max_pages : Z)
    (res : flow (list (str * str))) (st : State) : Prop :=
  exists fuel, crawl_same_domain w fuel start_url max_pages = Some (res, st).

(** ** A small model of [urllib.parse] and a table-driven site

    Used to run the crawler on concrete sites. [urlparse] is modelled for
    URLs of the form [scheme://netloc/path?query#fragment]. *)

Module SyntheticSite.

Definition is_delim (c : N) : bool := ((c =? 47) || (c =? 63) || (c =? 35))%N.

Fixpoint take_until (p : N -> bool) (s : str) : str :=
  match s with
  | [] => []
  | c :: s' => if p c then [] else c :: take_until p s'
  end.

Fixpoint drop_until (p : N -> bool) (s : str) : str :=
  match s with
  | [] => []
  | c :: s' => if p c then s else drop_until p s'
  end.

(** The scheme and what follows its colon; no scheme when there is no colon
    or nothing before it. *)
Definition split_scheme (url : str) : str * str :=
  match take_until (fun c => (c =? 58)%N) url, drop_until (fun c => (c =? 58)%N) url with
  | (_ :: _) as sch, _ :: rest => (lower sch, rest)
  | _, _ => ([], url)
  end.

(** The network location and what follows it. *)
Definition split_netloc (rest : str) : str * str :=
  match rest with
  | c1 :: c2 :: r =>
      if ((c1 =? 47) && (c2 =? 47))%N
      then (take_until is_delim r, drop_until is_delim r)
      else ([], rest)
  | _ => ([], rest)
  end.

Definition bracket_ok (nl : str) : bool :=
  bool_decide (91%N ∈ nl ↔ 93%N ∈ nl).

Definition parse_url (url : str) : exn + ParseResult :=
  let '(sch, rest) := split_scheme url in
  let '(nl, _) := split_netloc rest in
  if bracket_ok nl then inr {| scheme := sch; netloc := nl |}
  else inl (OtherException (u "Invalid IPv6 URL")).

(** The path component of a URL. *)
Definition url_path (url : str) : str :=
  let '(_, rest) := split_scheme url in
  let '(_, r) := split_netloc rest in
  take_until (fun c => (c =? 63) || (c =? 35))%N r.

(** [urljoin(base, url)] for a reference that is absolute or starts with a
    slash; other references are resolved against the root. *)
Definition join_url (base url : str) : exn + str :=
  match parse_url base, parse_url url with
  | inl e, _ | _, inl e => inl e
  | inr b, inr r =>
      match scheme r with
      | _ :: _ => inr url
      | [] =>
          if startswith url [47%N]
          then inr (scheme b ++ u "://" ++ netloc b ++ url)
          else inr (scheme b ++ u "://" ++ netloc b ++ u "/" ++ url)
      end
  end.

(** [unquote(url)] for the escapes [%XX] of ASCII characters; the escapes
    of other bytes are left as they are. *)
Definition hex_digit (c : N) : option N :=
  (if (48 <=? c) && (c <=? 57) then Some (c - 48)
   else if (65 <=? c) && (c <=? 70) then Some (c - 55)
   else if (97 <=? c) && (c <=? 102) then Some (c - 87)
   else None)%N.

Definition escape (c c1 c2 : N) : option N :=
  if (c =? 37)%N then
    match hex_digit c1, hex_digit c2 with
    | Some h, Some l => if (h <? 8)%N then Some (16 * h + l)%N else None
    | _, _ => None
    end
  else None.

Fixpoint unquote_ascii (s : str) : str :=
  match s with
  | [] => []
  | c :: s' =>
      match s' with
      | c1 :: c2 :: r =>
          match escape c c1 c2 with
          | Some b => b :: unquote_ascii r
          | None => c :: unquote_ascii s'
          end
      | _ => c :: unquote_ascii s'
      end
  end.

(** A page of the site: its URL, the response to a GET. *)
Definition page_table := list (str * (exn + Response)).
(** What the parser makes of a body. *)
Definition soup_table := list (str * (exn + Soup)).

Definition not_found : Response :=
  {| status_code := 404; content_type_header := Some (u "text/html"); text := [] |}.

Definition html (body : str) : exn + Response :=
  inr {| status_code := 200; content_type_header := Some (u "text/html; charset=utf-8");
         text := body |}.

Definition doc (title : option str) (hrefs : list str) : exn + Soup :=
  inr {| find_title := (fun s => {| tag_string := Some s |}) <$> title;
         find_all_a_href := hrefs |}.

Definition world (robots : RobotsFetch) (pages : page_table) (soups : soup_table) : World :=
  {| urlparse := parse_url;
     urljoin := join_url;
     unquote := unquote_ascii;
     urlopen_robots := fun _ => robots;
     session_get := fun _ _ url => default (inr not_found) (assoc url pages);
     BeautifulSoup := fun body =>
       default (inr {| find_title := None; find_all_a_href := [] |}) (assoc body soups) |}.

Definition allow_everything : RobotsFetch := ReadRules (fun _ _ => true).

End SyntheticSite.

(** The site of the breadth-first scenario: A links to B and C, and B
    links to D. *)
Module BfsExample.
Import SyntheticSite.

Definition A := u "https://site.test".
Definition B := u "https://site.test/b".
Definition C := u "https://site.test/c".
Definition D := u "https://site.test/d".

Definition pages : page_table :=
  [ (A, html (u "page A")); (B, html (u "page B"));
    (C, html (u "page C")); (D, html (u "page D")) ].

Definition soups : soup_table :=
  [ (u "page A", doc (Some (u " A ")) [u "/b"; u "/c"]);
    (u "page B", doc (Some (u "B")) [u "/d"]);
    (u "page C", doc (Some (u "C")) []);
    (u "page D", doc (Some (u "D")) []) ].

Definition site : World := world allow_everything pages soups.

End BfsExample.

(** A home page with a title, a link to a page of the site (twice, with a
    trailing slash and with a fragment), a mail link and a link to another
    site. *)
Module ScenarioExample.
Import SyntheticSite.

Definition home := u "https://example.test".
Definition about := u "https://example.test/about".

Definition site : World :=
  world allow_everything
    [ (home, html (u "<title>Home</title>...")) ]
    [ (u "<title>Home</title>...",
       doc (Some (u "Home"))
         [u "/about/"; u " /about#team "; u "mailto:a@b.com";
          u "https://other.test/x"; u "https://example.test/"]) ].

End ScenarioExample.


(** The extension filter as the specification words it: the test is made
    on the path of the URL. *)
Definition is_excluded_by_path (url : str) : bool :=
  existsb (endswith (lower (SyntheticSite.url_path url))) EXCLUDED_EXTENSIONS.

(** A page that links to a PDF file with a query string. *)
Module ExtensionExample.
Import SyntheticSite.

Definition A := u "https://site.test".
Definition doc_url := u "https://site.test/doc.pdf?v=2".

Definition site : World :=
  world allow_everything
    [ (A, html (u "page A"));
      (doc_url, inr {| status_code := 200;
                       content_type_header := Some (u "application/pdf");
                       text := u "%PDF-1.7" |}) ]
    [ (u "page A", doc (Some (u "A")) [u "/doc.pdf?v=2"]) ].

End ExtensionExample.

(** A page whose body holds an HTML comment. *)
Module CommentExample.
Import SyntheticSite.

Definition seed := u "https://site.test".
Definition body := u "<!-- <a href=/old>old</a> --><title>T</title>".

Definition site : World :=
  world allow_everything [ (seed, html body) ] [ (body, doc (Some (u "T")) []) ].

End CommentExample.

(** A page that links to a missing page and to a page that exists. *)
Module StatusExample.
Import SyntheticSite.

Definition A := u "https://site.test".
Definition B := u "https://site.test/missing".
Definition C := u "https://site.test/c".

Definition site : World :=
  world allow_everything
    [ (A, html (u "page A")); (C, html (u "page C")) ]
    [ (u "page A", doc (Some (u "A")) [u "/missing"; u "/c"]);
      (u "page C", doc (Some (u "C")) []) ].

End StatusExample.

(** The four-page site when robots.txt cannot be loaded: [urlopen] raises
    [URLError]. *)
Module RobotsFailureExample.
Import SyntheticSite.

Definition site : World :=
  world (ReadRaises (OtherException (u "<urlopen error timed out>")))
    BfsExample.pages BfsExample.soups.

End RobotsFailureExample.

(** A page with a link that [urljoin] rejects, between two links it
    accepts. *)
Module LinkFailureExample.
Import SyntheticSite.

Definition A := u "https://site.test".
Definition B := u "https://site.test/b".

Definition site : World :=
  world allow_everything
    [ (A, html (u "page A")); (B, html (u "page B")) ]
    [ (u "page A", doc (Some (u "A")) [u "/b"; u "http://["; u "/c"]);
      (u "page B", doc (Some (u "B")) []) ].

End LinkFailureExample.

(** Three pages: a title with white space around it, no title element,
    and a title element that has no single string. *)
Module TitleExample.
Import SyntheticSite.

Definition A := u "https://site.test".
Definition B := u "https://site.test/b".
Definition C := u "https://site.test/c".

Definition site : World :=
  world allow_everything
    [ (A, html (u "page A")); (B, html (u "page B")); (C, html (u "page C")) ]
    [ (u "page A", doc (Some (u "  Home page ")) [u "/b"; u "/c"]);
      (u "page B", doc None []);
      (u "page C", inr {| find_title := Some {| tag_string := None |};
                          find_all_a_href := [] |}) ].

End TitleExample.

(** ** More readings of the trace, and the script *)

(** The normal form the loop gives to a link once [urljoin] has resolved
    it: [urljoin(...).split('#')[0]], then [.rstrip('/')]. *)
Definition normalize_link (joined : str) : str :=
  rstrip_slash (split_hash_0 joined).

(** The assignments to the dictionary, in order. *)
Definition items : list Event -> list (str * str) :=
  omap (fun e => match e with SetItem x t => Some (x, t) | _ => None end).

(** The two skip lines printed after a GET. *)
Definition skips : list Event -> list unit :=
  omap (fun e => match e with
                 | Print (MsgSkipStatus _) | Print (MsgSkipContentType _) => Some tt
                 | _ => None
                 end).

(** For each [append], the URL popped last (the page the link was found
    on) and the URL appended. *)
Fixpoint link_edges (cur : option str) (es : list Event) : list (str * str) :=
  match es with
  | [] => []
  | Popleft x :: es' => link_edges (Some x) es'
  | Append v :: es' =>
      match cur with Some x => [(x, v)] | None => [] end ++ link_edges cur es'
  | _ :: es' => link_edges cur es'
  end.

(** Every event of a trace with the number of assignments to the
    dictionary made before it, counting from [n]. *)
Fixpoint with_record_count (n : nat) (es : list Event) : list (Event * nat) :=
  match es with
  | [] => []
  | e :: es' =>
      (e, n) ::
      with_record_count (match e with SetItem _ _ => S n | _ => n end) es'
  end.




(** Every GET of the trace that was answered, on the events before it, by
    a page which the parser accepts is followed by the parsing of the page
    and the assignment of its title. *)
Definition pages_are_recorded (w : World) (tr : list Event) : Prop :=
  forall t1 x t2 response soup,
    tr = t1 ++ Get x :: t2 ->
    session_get w t1 USER_AGENT x = inr response -> is_page response ->
    BeautifulSoup w (text response) = inr soup ->
    exists t3,
      t2 = Parse (text response) ::
           SetItem x (title_text_of (find_title soup)) :: t3.

(** Every assignment of the trace follows the GET of its URL, answered by a
    page, and the parsing of that page, and assigns the title of the parsed
    document. *)
Definition entries_are_pages (w : World) (tr : list Event) : Prop :=
  forall t1 x t t2,
    tr = t1 ++ SetItem x t :: t2 ->
    exists t0 response soup,
      t1 = t0 ++ [Get x; Parse (text response)] /\
      session_get w t0 USER_AGENT x = inr response /\ is_page response /\
      BeautifulSoup w (text response) = inr soup /\
      t = title_text_of (find_title soup).

(** What a progress line [[k/m]: url] must show when [n] entries have been
    recorded before it and the budget is [max_pages]. *)
Definition progress_line_ok (max_pages : Z) (p : Event * nat) : Prop :=
  match p.1 with
  | Print (MsgProcessing k m _) =>
      k = Z.of_nat p.2 + 1 /\ m = max_pages /\ k <= max_pages
  | _ => True
  end.

Definition not_progress_line (e : Event) : Prop :=
  match e with Print (MsgProcessing _ _ _) => False | _ => True end.

(** * Properties *)

(** ** Replaying events *)

Lemma run_events_app es1 es2 st :
  run_events (es1 ++ es2) st = run_events es2 (run_events es1 st).
Proof. apply foldl_app. Qed.

Lemma run_events_cons e es st :
  run_events (e :: es) st = run_events es (apply_event e st).
Proof. done. Qed.

Lemma trace_apply_event e st : trace (apply_event e st) = trace st ++ [e].
Proof. by destruct e. Qed.

Lemma trace_run_events es st : trace (run_events es st) = trace st ++ es.
Proof.
  revert st. induction es as [|e es IH]; intros st.
  - by rewrite app_nil_r.
  - rewrite run_events_cons, IH, trace_apply_event, <- app_assoc. done.
Qed.

Lemma seen_run_events es st :
  seen_urls (run_events es st) = list_to_set (appends es) ∪ seen_urls st.
Proof.
  revert st. induction es as [|e es IH]; intros st.
  - simpl. set_solver.
  - rewrite run_events_cons, IH. destruct e; simpl; set_solver.
Qed.

Lemma queue_run_events es st :
  pops es = [] ->
  urls_to_visit (run_events es st) = urls_to_visit st ++ appends es.
Proof.
  revert st. induction es as [|e es IH]; intros st Hp.
  - by rewrite app_nil_r.
  - rewrite run_events_cons.
    destruct e; simpl in Hp; try discriminate; rewrite (IH _ Hp); try done.
    simpl. by rewrite <- app_assoc.
Qed.

Lemma scraped_run_events es st :
  records es = [] ->
  scraped_pages (run_events es st) = scraped_pages st.
Proof.
  revert st. induction es as [|e es IH]; intros st Hp; [done|].
  rewrite run_events_cons.
  destruct e; simpl in Hp; try discriminate; by rewrite (IH _ Hp).
Qed.

Lemma pops_app es1 es2 : pops (es1 ++ es2) = pops es1 ++ pops es2.
Proof. apply omap_app. Qed.
Lemma fetches_app es1 es2 : fetches (es1 ++ es2) = fetches es1 ++ fetches es2.
Proof. apply omap_app. Qed.
Lemma records_app es1 es2 : records (es1 ++ es2) = records es1 ++ records es2.
Proof. apply omap_app. Qed.
Lemma appends_app es1 es2 : appends (es1 ++ es2) = appends es1 ++ appends es2.
Proof. apply omap_app. Qed.
Lemma sleeps_app es1 es2 : sleeps (es1 ++ es2) = sleeps es1 ++ sleeps es2.
Proof. apply omap_app. Qed.

Lemma pops_Append vs : pops (Append <$> vs) = [].
Proof. by induction vs. Qed.
Lemma fetches_Append vs : fetches (Append <$> vs) = [].
Proof. by induction vs. Qed.
Lemma records_Append vs : records (Append <$> vs) = [].
Proof. by induction vs. Qed.
Lemma appends_Append vs : appends (Append <$> vs) = vs.
Proof. induction vs as [|v vs IH]; [done|]. rewrite fmap_cons. simpl. by f_equal. Qed.
Lemma sleeps_Append vs : sleeps (Append <$> vs) = [].
Proof. by induction vs. Qed.

Lemma items_app es1 es2 : items (es1 ++ es2) = items es1 ++ items es2.
Proof. apply omap_app. Qed.
Lemma items_Append vs : items (Append <$> vs) = [].
Proof. by induction vs. Qed.

Lemma re_sub_empty_pattern_nil s : re_sub_empty_pattern [] s = s.
Proof. unfold re_sub_empty_pattern. simpl. induction s; simpl; congruence. Qed.

(** ** One iteration *)

Section IterationFacts.
Variable w : World.
Variable base_domain : str.
Variable robot_parser : RobotFileParser.t.
Variable max_pages : Z.

Lemma for_each_links x hrefs : forall st,
  for_each hrefs (link_body w base_domain x) st =
  (match (fresh_links w base_domain x (seen_urls st) hrefs).2 with
   | None => Normal tt | Some e => Raise e end,
   run_events (Append <$> (fresh_links w base_domain x (seen_urls st) hrefs).1) st).
Proof.
  induction hrefs as [|h hs IH]; intros st; simpl; [done|].
  unfold link_body, link_candidate.
  destruct (existsb _ _); simpl.
  { rewrite IH. done. }
  unfold bind, lift at 1.
  destruct (urljoin w x (strip h)) as [e|joined]; simpl; [done|].
  destruct (urlparse w (split_hash_0 joined)) as [e|pr]; simpl; [done|].
  destruct (bool_decide (scheme pr ∈ HTTP_SCHEMES) && bool_decide (netloc pr = base_domain)); simpl.
  2:{ rewrite IH. done. }
  destruct (bool_decide (rstrip_slash (split_hash_0 joined) ∉ seen_urls st)) eqn:E; simpl.
  2:{ rewrite IH. done. }
  rewrite IH. simpl.
  destruct (fresh_links _ _ _ _ hs) as [vs o]. simpl. done.
Qed.

Lemma loop_body_iteration st x q :
  urls_to_visit st = x :: q ->
  exists es r,
    iteration w base_domain robot_parser max_pages st x es /\
    loop_body w base_domain robot_parser max_pages st = (r, run_events es st) /\
    (forall e, r = Raise e ->
       is_excluded x = false /\
       RobotFileParser.can_fetch w robot_parser USER_AGENT x = inl e /\
       es = [Popleft x]).
Proof.
  intros Hq. unfold loop_body, bind at 1, popleft. rewrite Hq.
  destruct (is_excluded x) eqn:Hex.
  { exists [Popleft x], Continue. split; [by constructor|].
    split; [|done]. unfold continue_, run_events. simpl. by rewrite Hq. }
  unfold bind at 1, lift at 1.
  destruct (RobotFileParser.can_fetch w robot_parser USER_AGENT x)
    as [e|[|]] eqn:Hrob; simpl.
  { exists [Popleft x], (Raise e). split; [by eapply it_robots_raised|].
    split; [|by intros e' [= <-]].
    unfold raise, run_events. simpl. by rewrite Hq. }
  2:{ exists [Popleft x; Print (MsgRobotsSkip x)], Continue.
      split; [by constructor|]. split; [|done].
      unfold run_events, bind, print, log, continue_. simpl. by rewrite Hq. }
  assert (Hadm : admitted w robot_parser x) by done.
  unfold bind at 1, gets. cbn [scraped_pages].
  unfold bind at 1, print, log.
  unfold bind at 1, try_except, try_body, bind at 1, get.
  cbn [trace emit].
  rewrite <- (app_assoc (trace st) [Popleft x]). cbn [app].
  change (session_get w _ USER_AGENT x) with (answer w max_pages st x).
  set (st1 := emit (Get x) _).
  assert (Hst1 : st1 = run_events (upto_get max_pages st x) st).
  { unfold st1, run_events, upto_get. simpl. rewrite Hq. done. }
  clearbody st1.
  destruct (answer w max_pages st x) as [e|response] eqn:Ha.
  { eexists _, (Normal tt). split; [by eapply it_get_failed|].
    split; [|done]. rewrite run_events_app, <- Hst1.
    destruct e; done. }
  destruct (status_code response =? 200) eqn:Hstat; simpl.
  2:{ apply Z.eqb_neq in Hstat.
      eexists _, Continue. split; [by eapply it_status|].
      split; [|done]. rewrite run_events_app, <- Hst1. done. }
  apply Z.eqb_eq in Hstat.
  destruct (contains TEXT_HTML _) eqn:Hct; simpl.
  2:{ eexists _, Continue. split; [by eapply it_content_type|].
      split; [|done]. rewrite run_events_app, <- Hst1. done. }
  assert (Hpage : is_page response) by done.
  rewrite re_sub_empty_pattern_nil.
  unfold bind at 1, parse.
  destruct (BeautifulSoup w (text response)) as [e|soup] eqn:Hsoup.
  { eexists _, (Normal tt). split; [by eapply it_parse_failed|].
    split; [|done]. rewrite run_events_app, <- Hst1.
    destruct e; done. }
  unfold bind at 1, set_scraped.
  rewrite for_each_links.
  match goal with
  | |- context [fresh_links _ _ _ ?s _] =>
      replace s with (seen_urls st) by (by rewrite Hst1)
  end.
  destruct (fresh_links w base_domain x (seen_urls st) (find_all_a_href soup))
    as [vs [e|]] eqn:Hfl; cbn [fst snd].
  - eexists _, (Normal tt).
    split; [by eapply it_links_failed|].
    split; [|done]. rewrite !run_events_app, <- Hst1.
    destruct e; done.
  - eexists _, (Normal tt).
    split; [by eapply it_scraped|].
    split; [|done]. rewrite !run_events_app, <- Hst1. done.
Qed.

Lemma fresh_links_spec x hrefs : forall seen vs o,
  fresh_links w base_domain x seen hrefs = (vs, o) ->
  NoDup vs /\
  forall v, v ∈ vs ->
    (v ∉ seen) /\ exists h, h ∈ hrefs /\ link_candidate w base_domain x h = inr (Some v).
Proof.
  induction hrefs as [|h hs IH]; intros seen vs o Hfl; simpl in Hfl.
  { inversion Hfl. split; [constructor|]. intros v Hv. by apply elem_of_nil in Hv. }
  destruct (link_candidate w base_domain x h) as [e|[v0|]] eqn:Hc.
  - inversion Hfl. split; [constructor|]. intros v Hv. by apply elem_of_nil in Hv.
  - destruct (bool_decide (v0 ∉ seen)) eqn:Hfresh.
    + apply bool_decide_eq_true in Hfresh.
      destruct (fresh_links w base_domain x ({[v0]} ∪ seen) hs) as [vs' o'] eqn:Hrec.
      inversion Hfl; subst. destruct (IH _ _ _ Hrec) as [Hnd Hall].
      split.
      * constructor; [|done]. intros Hin. apply Hall in Hin as [Hn _]. set_solver.
      * intros v Hv. apply elem_of_cons in Hv as [->|Hv].
        { split; [done|]. exists h. split; [left|done]. }
        apply Hall in Hv as [Hn (h' & Hh' & Hc')].
        split; [set_solver|]. exists h'. split; [by right|done].
    + destruct (IH _ _ _ Hfl) as [Hnd Hall]. split; [done|].
      intros v Hv. apply Hall in Hv as [Hn (h' & Hh' & Hc')].
      split; [done|]. exists h'. split; [by right|done].
  - destruct (IH _ _ _ Hfl) as [Hnd Hall]. split; [done|].
    intros v Hv. apply Hall in Hv as [Hn (h' & Hh' & Hc')].
    split; [done|]. exists h'. split; [by right|done].
Qed.

Lemma recorded_events st x html t vs rest :
  pops rest = [] -> fetches rest = [] -> records rest = [] -> appends rest = [] ->
  let es := upto_get max_pages st x ++ [Parse html; SetItem x t] ++ (Append <$> vs) ++ rest in
  pops (tail es) = [] /\
  fetches es = [x] /\
  records es = [x] /\
  appends es = vs /\
  scraped_pages (run_events es st) = dict_set x t (scraped_pages st).
Proof.
  intros Hp Hf Hr Ha es. unfold es, upto_get. cbn [app tail].
  split_and!.
  - change (?a :: ?b :: ?c :: ?d :: ?l) with ([a; b; c; d] ++ l).
    by rewrite !pops_app, pops_Append, Hp.
  - change (?a :: ?b :: ?c :: ?d :: ?e :: ?l) with ([a; b; c; d; e] ++ l).
    by rewrite !fetches_app, fetches_Append, Hf.
  - change (?a :: ?b :: ?c :: ?d :: ?e :: ?l) with ([a; b; c; d; e] ++ l).
    by rewrite !records_app, records_Append, Hr.
  - change (?a :: ?b :: ?c :: ?d :: ?e :: ?l) with ([a; b; c; d; e] ++ l).
    rewrite !appends_app, appends_Append, Ha. simpl. by rewrite app_nil_r.
  - change (?a :: ?b :: ?c :: ?d :: ?e :: ?l) with ([a; b; c; d; e] ++ l).
    rewrite run_events_app, scraped_run_events.
    + done.
    + by rewrite records_app, records_Append, Hr.
Qed.

Lemma iteration_summary st x q es :
  urls_to_visit st = x :: q ->
  iteration w base_domain robot_parser max_pages st x es ->
  exists es' k,
    es = Popleft x :: es' /\ pops es' = [] /\
    fetches es = kind_fetches k x /\
    records es = kind_records k x /\
    scraped_pages (run_events es st) = kind_dict k x (scraped_pages st) /\
    urls_to_visit (run_events es st) = q ++ appends es /\
    NoDup (appends es) /\
    (forall v, v ∈ appends es ->
       (v ∉ seen_urls st) /\
       exists h, link_candidate w base_domain x h = inr (Some v)) /\
    (appends es <> [] -> exists t, k = Recorded t).
Proof.
  intros Hq Hit.
  assert (Hqueue : forall es', pops es' = [] ->
    urls_to_visit (run_events (Popleft x :: es') st) = q ++ appends es').
  { intros es' Hp. rewrite run_events_cons, queue_run_events by done.
    simpl. by rewrite Hq. }
  assert (Hnil : NoDup (@nil str) /\
    (forall v, v ∈ @nil str ->
       (v ∉ seen_urls st) /\
       exists h, link_candidate w base_domain x h = inr (Some v)) /\
    forall k, (@nil str <> [] -> exists t, k = Recorded t)).
  { split; [constructor|]. split; [|done]. intros v Hv. by apply elem_of_nil in Hv. }
  destruct Hnil as (Hn1 & Hn2 & Hn3).
  destruct Hit as [ | | | | | | response soup vs Hadm Hans Hpage Hsoup Hfl
                   | response soup vs e Hadm Hans Hpage Hsoup Hfl | ];
    unfold upto_get; cbn [app].
  - exists [], Skipped. rewrite Hqueue by done.
    split_and!; first [done | exact Hn1 | exact Hn2 | exact (Hn3 _)].
  - eexists _, Skipped. split; [done|]. rewrite Hqueue by done.
    split_and!; first [done | exact Hn1 | exact Hn2 | exact (Hn3 _)].
  - eexists _, Fetched. split; [done|]. rewrite Hqueue by done.
    split_and!; first [done | exact Hn1 | exact Hn2 | exact (Hn3 _)].
  - eexists _, Fetched. split; [done|]. rewrite Hqueue by done.
    split_and!; first [done | exact Hn1 | exact Hn2 | exact (Hn3 _)].
  - eexists _, Fetched. split; [done|]. rewrite Hqueue by done.
    split_and!; first [done | exact Hn1 | exact Hn2 | exact (Hn3 _)].
  - eexists _, Fetched. split; [done|]. rewrite Hqueue by done.
    split_and!; first [done | exact Hn1 | exact Hn2 | exact (Hn3 _)].
  - destruct (recorded_events st x (text response)
                (title_text_of (find_title soup)) vs [Sleep])
      as (Hp & Hf & Hr & Ha & Hs); try done.
    destruct (fresh_links_spec _ _ _ _ _ Hfl) as [Hnd Hall].
    eexists _, (Recorded (title_text_of (find_title soup))).
    split; [done|]. rewrite Hqueue by done.
    unfold upto_get in *; cbn [app] in *. rewrite Hf, Hr, Ha, Hs.
    split_and!; try done.
    + f_equal. change (?a :: ?b :: ?c :: ?d :: ?l) with ([a; b; c; d] ++ l).
      rewrite !appends_app, appends_Append. simpl. by rewrite app_nil_r.
    + intros v Hv. destruct (Hall _ Hv) as [Hn (h & _ & Hc)].
      split; [done|]. by exists h.
    + by eexists.
  - destruct (recorded_events st x (text response)
                (title_text_of (find_title soup)) vs [Print (error_message e); Sleep])
      as (Hp & Hf & Hr & Ha & Hs); try done.
    destruct (fresh_links_spec _ _ _ _ _ Hfl) as [Hnd Hall].
    eexists _, (Recorded (title_text_of (find_title soup))).
    split; [done|]. rewrite Hqueue by done.
    unfold upto_get in *; cbn [app] in *. rewrite Hf, Hr, Ha, Hs.
    split_and!; try done.
    + f_equal. change (?a :: ?b :: ?c :: ?d :: ?l) with ([a; b; c; d] ++ l).
      rewrite !appends_app, appends_Append. simpl. by rewrite app_nil_r.
    + intros v Hv. destruct (Hall _ Hv) as [Hn (h & _ & Hc)].
      split; [done|]. by exists h.
    + by eexists.
  - exists [], Skipped. rewrite Hqueue by done.
    split_and!; first [done | exact Hn1 | exact Hn2 | exact (Hn3 _)].
Qed.

End IterationFacts.

Ltac iteration_cases Hit :=
  destruct Hit as [Hex'|Hex' Hrob'|e Hadm Ha|r Hadm Ha Hst|r Hadm Ha Hst Hct
                  |r e Hadm Ha Hpage Hsoup|r soup vs Hadm Ha Hpage Hsoup Hfl
                  |r soup vs e Hadm Ha Hpage Hsoup Hfl|e Hex' Hraise].

(** ** The dictionary *)

Lemma dict_set_keys_fresh k v d :
  k ∉ d.*1 -> (dict_set k v d).*1 = d.*1 ++ [k].
Proof.
  induction d as [|[k' v'] d IH]; intros Hk; [done|].
  csimpl in *. apply not_elem_of_cons in Hk as [Hne Hk].
  destruct (decide (k' = k)); [congruence|]. csimpl. by rewrite IH.
Qed.

Lemma dict_set_keys_present k v d :
  k ∈ d.*1 -> (dict_set k v d).*1 = d.*1.
Proof.
  induction d as [|[k' v'] d IH]; intros Hk; [by apply elem_of_nil in Hk|].
  csimpl in *. destruct (decide (k' = k)) as [->|Hne]; [done|].
  csimpl. rewrite IH; [done|]. apply elem_of_cons in Hk as [?|?]; congruence.
Qed.

Lemma dict_set_elem k v d k' v' :
  (k', v') ∈ dict_set k v d -> (k', v') = (k, v) \/ (k', v') ∈ d.
Proof.
  induction d as [|[k0 v0] d IH]; simpl; intros Hin.
  - apply list_elem_of_singleton in Hin. by left.
  - destruct (decide (k0 = k)).
    + apply elem_of_cons in Hin as [?|?]; [by left|]. right. by right.
    + apply elem_of_cons in Hin as [->|Hin]; [right; by left|].
      destruct (IH Hin); [by left|]. right. by right.
Qed.

Lemma dict_set_fresh k v d : k ∉ d.*1 -> dict_set k v d = d ++ [(k, v)].
Proof.
  induction d as [|[k' v'] d IH]; intros Hk; [done|].
  csimpl in *. apply not_elem_of_cons in Hk as [Hne Hk].
  destruct (decide (k' = k)); [congruence|]. by rewrite IH.
Qed.

(** ** The loop *)

Section LoopFacts.
Variable w : World.
Variable base_domain : str.
Variable robot_parser : RobotFileParser.t.
Variable max_pages : Z.

Local Abbreviation loop := (crawl_loop w base_domain robot_parser max_pages).
Local Abbreviation step_of := (iteration w base_domain robot_parser max_pages).

Lemma while_cond_true st :
  while_cond max_pages st = true <->
  exists x q, urls_to_visit st = x :: q /\
              Z.of_nat (length (scraped_pages st)) < max_pages.
Proof.
  unfold while_cond. destruct (urls_to_visit st) as [|x q].
  - split; [done|]. by intros (? & ? & ? & ?).
  - rewrite Z.ltb_lt. split; [by exists x, q|]. by intros (? & ? & _ & ?).
Qed.

Lemma while_cond_false st :
  while_cond max_pages st = false <->
  urls_to_visit st = [] \/ max_pages <= Z.of_nat (length (scraped_pages st)).
Proof.
  unfold while_cond. destruct (urls_to_visit st) as [|x q].
  - split; [by left|done].
  - rewrite Z.ltb_ge. split; [by right|]. by intros [?|?].
Qed.

(** An invariant of the iterations holds when the loop ends. The loop ends
    normally, with its condition false, or with the exception of the robots
    check of the URL popped last. *)
Lemma crawl_loop_invariant (I : State -> Prop) :
  (forall st x q es,
     I st -> urls_to_visit st = x :: q ->
     Z.of_nat (length (scraped_pages st)) < max_pages ->
     step_of st x es -> I (run_events es st)) ->
  forall fuel st r st',
    I st -> loop fuel st = Some (r, st') ->
    I st' /\
    ((r = Normal tt /\ while_cond max_pages st' = false) \/
     (exists e, r = Raise e /\ robots_check_raised w robot_parser st' e)).
Proof.
  intros Hstep. induction fuel as [|fuel IH]; intros st r st' HI Hrun; [done|].
  simpl in Hrun. destruct (while_cond max_pages st) eqn:Hc.
  - apply while_cond_true in Hc as (x & q & Hq & Hlt).
    destruct (loop_body_iteration w base_domain robot_parser max_pages st x q Hq)
      as (es & r0 & Hit & Hbody & Hr0).
    rewrite Hbody in Hrun.
    assert (HI' := Hstep _ _ _ _ HI Hq Hlt Hit).
    destruct r0 as [[]| |e]; [by eapply IH | by eapply IH |].
    destruct (Hr0 e eq_refl) as (Hex & Hrob & ->).
    inversion Hrun; subst. split; [done|]. right. exists e. split; [done|].
    by exists (trace st), x.
  - inversion Hrun; subst. split; [done|]. by left.
Qed.

Lemma frontier_inv_step seed st x q es :
  frontier_inv seed st -> urls_to_visit st = x :: q ->
  step_of st x es -> frontier_inv seed (run_events es st).
Proof.
  intros (Hfifo & Hnd & Hseen & Hfp & Hrf & Hkeys) Hq Hit.
  destruct (iteration_summary _ _ _ _ _ _ _ _ Hq Hit)
    as (es' & k & Hes & Hp & Hf & Hr & Hd & Hqueue & Hndv & Hfresh & Hk).
  assert (Hpops : pops es = [x]) by (by rewrite Hes; simpl; rewrite Hp).
  rewrite Hq in Hfifo.
  assert (Hx : x ∉ pops (trace st)).
  { rewrite <- Hfifo in Hnd. apply NoDup_app in Hnd as (_ & Hdis & _).
    intros Hin. apply (Hdis _ Hin). left. }
  unfold frontier_inv. rewrite trace_run_events, pops_app, fetches_app,
    records_app, appends_app, Hpops, Hf, Hr, Hqueue, Hd.
  split_and!.
  - change (seed :: ?a ++ ?b) with ((seed :: a) ++ b).
    rewrite <- Hfifo, <- !app_assoc. done.
  - rewrite app_comm_cons. apply NoDup_app. split_and!; [done| |done].
    intros v Hv Hv'. apply Hfresh in Hv' as [Hn _]. by apply Hn, Hseen.
  - intros v. rewrite seen_run_events, app_comm_cons, elem_of_app,
      elem_of_union, elem_of_list_to_set, Hseen. tauto.
  - apply sublist_app; [done|]. destruct k; simpl; [apply sublist_nil_l|done..].
  - destruct k; simpl; rewrite ?app_nil_r; [done| |by apply sublist_app].
    by apply sublist_inserts_r.
  - destruct k; simpl; rewrite ?app_nil_r; try done.
    rewrite <- Hkeys. apply dict_set_keys_fresh. rewrite Hkeys.
    intros Hin. apply Hx. eapply elem_of_sublist; [apply Hin|].
    by etrans.
Qed.

(** An iteration either records nothing and shortens the frontier by one,
    or adds one entry to the dictionary. *)
Lemma step_measure seed st x q es :
  frontier_inv seed st -> urls_to_visit st = x :: q ->
  step_of st x es ->
  (length (scraped_pages (run_events es st)) = length (scraped_pages st) /\
   urls_to_visit (run_events es st) = q) \/
  length (scraped_pages (run_events es st)) = S (length (scraped_pages st)).
Proof.
  intros Hinv Hq Hit.
  pose proof (frontier_inv_step _ _ _ _ _ Hinv Hq Hit) as Hinv'.
  destruct Hinv as (_ & _ & _ & _ & _ & Hkeys).
  destruct Hinv' as (_ & _ & _ & _ & _ & Hkeys').
  destruct (iteration_summary _ _ _ _ _ _ _ _ Hq Hit)
    as (es' & k & Hes & Hp & Hf & Hr & Hd & Hqueue & Hndv & Hfresh & Hk).
  apply (f_equal length) in Hkeys, Hkeys'.
  rewrite length_fmap in Hkeys, Hkeys'.
  rewrite trace_run_events, records_app, length_app, Hr in Hkeys'.
  destruct k; simpl in Hkeys'.
  - left. split; [lia|]. rewrite Hqueue.
    destruct (appends es) as [|v vs]; [by rewrite app_nil_r|].
    by destruct Hk as [t Ht].
  - left. split; [lia|]. rewrite Hqueue.
    destruct (appends es) as [|v vs]; [by rewrite app_nil_r|].
    by destruct Hk as [t Ht].
  - right. lia.
Qed.

(** The loop ends: each iteration either shortens the frontier or uses up
    one unit of the budget. *)
Lemma crawl_loop_terminates seed : forall n k st,
  frontier_inv seed st ->
  (Z.to_nat (max_pages - Z.of_nat (length (scraped_pages st))) <= n)%nat ->
  (length (urls_to_visit st) <= k)%nat ->
  exists fuel r st', loop fuel st = Some (r, st').
Proof.
  induction n as [|n IHn].
  - intros k st _ Hn _. exists 1%nat, (Normal tt), st. simpl.
    replace (while_cond max_pages st) with false; [done|].
    symmetry. apply while_cond_false. right. lia.
  - induction k as [|k IHk]; intros st Hinv Hn Hk.
    + exists 1%nat, (Normal tt), st. simpl.
      replace (while_cond max_pages st) with false; [done|].
      symmetry. apply while_cond_false. left.
      destruct (urls_to_visit st); [done|simpl in Hk; lia].
    + destruct (while_cond max_pages st) eqn:Hc.
      2:{ exists 1%nat, (Normal tt), st. simpl. by rewrite Hc. }
      pose proof Hc as Hc'.
      apply while_cond_true in Hc' as (x & q & Hq & Hlt).
      destruct (loop_body_iteration w base_domain robot_parser max_pages st x q Hq)
        as (es & r0 & Hit & Hbody & Hr0).
      pose proof (frontier_inv_step _ _ _ _ _ Hinv Hq Hit) as Hinv'.
      assert (exists fuel r st', loop fuel (run_events es st) = Some (r, st'))
        as (fuel & r & st' & Hrun).
      { destruct (step_measure _ _ _ _ _ Hinv Hq Hit) as [[Hlen Hqueue]|Hlen].
        - apply IHk; [done|lia|]. rewrite Hqueue. rewrite Hq in Hk.
          simpl in Hk. lia.
        - apply (IHn (length (urls_to_visit (run_events es st)))); [done|lia|lia]. }
      destruct r0 as [[]| |e].
      * exists (S fuel), r, st'. simpl. by rewrite Hc, Hbody.
      * exists (S fuel), r, st'. simpl. by rewrite Hc, Hbody.
      * exists 1%nat, (Raise e), (run_events es st). simpl. by rewrite Hc, Hbody.
Qed.


End LoopFacts.

(** ** The whole call *)

Section RunFacts.
Variable w : World.

Lemma robots_setup_events base_scheme base_domain :
  let es := (robots_setup w base_scheme base_domain).2 in
  pops es = [] /\ fetches es = [] /\ records es = [] /\ appends es = [] /\
  sleeps es = [].
Proof.
  unfold robots_setup.
  by destruct (RobotFileParser.read _ _) as [[e|] p].
Qed.

Lemma initial_state_events start_url max_pages pr :
  let es := trace (initial_state w start_url max_pages pr) in
  pops es = [] /\ fetches es = [] /\ records es = [] /\ appends es = [] /\
  sleeps es = [].
Proof.
  destruct (robots_setup_events (scheme pr) (netloc pr)) as (H1 & H2 & H3 & H4 & H5).
  simpl. rewrite pops_app, fetches_app, records_app, appends_app, sleeps_app.
  rewrite H1, H2, H3, H4, H5. done.
Qed.

Lemma initial_frontier_inv start_url max_pages pr :
  frontier_inv (rstrip_slash start_url) (initial_state w start_url max_pages pr).
Proof.
  destruct (initial_state_events start_url max_pages pr) as (H1 & H2 & H3 & H4 & _).
  unfold frontier_inv. rewrite H1, H2, H3, H4. simpl.
  split_and!; try done.
  - apply NoDup_singleton.
  - intros x. set_solver.
Qed.


(** A call whose seed does not parse raises before anything else is
    done. *)
Lemma crawl_raises start_url max_pages e :
  urlparse w start_url = inl e ->
  returns w start_url max_pages (Raise e) empty_state.
Proof. intros He. exists 0%nat. unfold crawl_same_domain. by rewrite He. Qed.

(** A call whose seed parses ends: anything that holds on entry to the
    loop and is kept by the iterations holds in the state in which the loop
    is left. The call returns the dictionary, the frontier being empty or
    the budget used up, or it ends with the exception of the robots check
    of the URL popped last. *)
Lemma crawl_returns (I : State -> Prop) start_url max_pages pr :
  urlparse w start_url = inr pr ->
  let base_domain := netloc pr in
  let robot_parser := (robots_setup w (scheme pr) (netloc pr)).1 in
  let seed := rstrip_slash start_url in
  I (initial_state w start_url max_pages pr) ->
  (forall st x q es,
     frontier_inv seed st -> I st -> urls_to_visit st = x :: q ->
     Z.of_nat (length (scraped_pages st)) < max_pages ->
     iteration w base_domain robot_parser max_pages st x es ->
     I (run_events es st)) ->
  exists st,
    I st /\ frontier_inv seed st /\
    ((returns w start_url max_pages (Normal (scraped_pages st))
        (emit (Print MsgCrawlDone) st) /\
      (urls_to_visit st = [] \/
       max_pages <= Z.of_nat (length (scraped_pages st)))) \/
     (exists e,
        returns w start_url max_pages (Raise e) st /\
        robots_check_raised w robot_parser st e)).
Proof.
  intros Hpr base_domain robot_parser seed Hinit Hstep.
  pose proof (initial_frontier_inv start_url max_pages pr) as Hinv.
  destruct (crawl_loop_terminates w base_domain robot_parser max_pages seed
              _ _ _ Hinv (Nat.le_refl _) (Nat.le_refl _)) as (fuel & r & st & Hrun).
  destruct (crawl_loop_invariant w base_domain robot_parser max_pages
              (fun st => frontier_inv seed st /\ I st)) with (1 := fun st x q es
                '(conj Hf HI) Hq Hlt Hit =>
                conj (frontier_inv_step w base_domain robot_parser max_pages
                        seed st x q es Hf Hq Hit)
                     (Hstep st x q es Hf HI Hq Hlt Hit))
              (2 := conj Hinv Hinit) (3 := Hrun)
    as ([Hf HI] & [[-> Hc]|(e & -> & Hraise)]).
  - exists st. split_and!; [done|done|]. left.
    split; [|by apply while_cond_false in Hc].
    exists fuel. unfold crawl_same_domain. rewrite Hpr.
    cbv zeta. unfold base_domain, robot_parser in Hrun. by rewrite Hrun.
  - exists st. split_and!; [done|done|]. right. exists e. split; [|done].
    exists fuel. unfold crawl_same_domain. rewrite Hpr.
    cbv zeta. unfold base_domain, robot_parser in Hrun. by rewrite Hrun.
Qed.

End RunFacts.

Lemma emit_print_events m st :
  let es := trace (emit (Print m) st) in
  pops es = pops (trace st) /\ fetches es = fetches (trace st) /\
  records es = records (trace st) /\ appends es = appends (trace st) /\
  sleeps es = sleeps (trace st).
Proof.
  simpl. rewrite pops_app, fetches_app, records_app, appends_app, sleeps_app.
  simpl. by rewrite !app_nil_r.
Qed.

(** ** No duplicate visits *)

(** C1. In every run, however it ends, each URL is fetched at most once,
    and no URL is enqueued twice, since the seen-set holds exactly the URLs
    enqueued so far (the normalized seed and the URLs appended) and a URL is
    appended only when it is not in it; only URLs that were enqueued are
    fetched. Each URL is a key of the returned dictionary at most once, and
    the keys are URLs that were fetched. *)
Theorem no_duplicate_visits (w : World) (start_url : str) (max_pages : Z) :
  exists res st,
    returns w start_url max_pages res st /\
    NoDup (fetches (trace st)) /\
    NoDup (rstrip_slash start_url :: appends (trace st)) /\
    fetches (trace st) `sublist_of` rstrip_slash start_url :: appends (trace st) /\
    (forall parsed_uri, urlparse w start_url = inr parsed_uri ->
       forall x, x ∈ seen_urls st <->
                 x ∈ rstrip_slash start_url :: appends (trace st)) /\
    forall d, res = Normal d ->
      NoDup d.*1 /\
      d.*1 `sublist_of` fetches (trace st).
Proof.
  destruct (urlparse w start_url) as [e|pr] eqn:Hpr.
  { exists (Raise e), empty_state. split; [by apply crawl_raises|].
    split_and!; [constructor|apply NoDup_singleton|apply sublist_nil_l|done|done]. }
  destruct (crawl_returns w (fun _ => True) start_url max_pages pr Hpr I)
    as (st & _ & Hinv & Hend); [done|].
  destruct Hinv as (Hfifo & Hnd & Hseen & Hfp & Hrf & Hkeys).
  destruct (emit_print_events MsgCrawlDone st) as (Hp & Hf & Hr & Ha & _).
  assert (Hpn : NoDup (pops (trace st))).
  { rewrite <- Hfifo in Hnd. by apply NoDup_app in Hnd as (? & _). }
  assert (Hfn : NoDup (fetches (trace st))) by (by eapply sublist_NoDup).
  assert (Hfa : fetches (trace st) `sublist_of`
                rstrip_slash start_url :: appends (trace st)).
  { etrans; [exact Hfp|]. rewrite <- Hfifo. by apply sublist_inserts_r. }
  destruct Hend as [[Hret _]|(e & Hret & _)].
  2:{ eexists _, _. split; [exact Hret|]. by split_and!. }
  eexists _, _. split; [exact Hret|]. cbv zeta in *. rewrite Hf, Ha.
  split_and!; try done.
  intros d [= <-]. rewrite Hkeys. split; [by eapply sublist_NoDup|done].
Qed.

(** ** The page budget *)

Lemma records_before_visits_app n es1 es2 :
  records_before_visits n (es1 ++ es2) =
  records_before_visits n es1 ++
  records_before_visits (n + length (records es1)) es2.
Proof.
  revert n. induction es1 as [|e es1 IH]; intros n.
  - simpl. by rewrite Nat.add_0_r.
  - destruct e; simpl; rewrite IH; try done.
    f_equal. f_equal. lia.
Qed.

Lemma records_before_visits_Append n vs rest :
  records_before_visits n ((Append <$> vs) ++ rest) = records_before_visits n rest.
Proof. induction vs as [|v vs IH]; [done|]. by rewrite fmap_cons. Qed.

(** The scan reads off what the trace says at each [popleft] and GET. *)
Lemma records_before_visits_split (P : nat -> Prop) es : forall n,
  Forall P (records_before_visits n es) ->
  forall t1 e t2, es = t1 ++ e :: t2 ->
    (exists x, e = Popleft x \/ e = Get x) ->
    P (n + length (records t1))%nat.
Proof.
  induction es as [|e0 es IH]; intros n Hall t1 e t2 Hsplit Hvisit.
  { by destruct t1. }
  destruct t1 as [|e1 t1]; simpl in Hsplit; simplify_eq.
  - rewrite Nat.add_0_r.
    destruct Hvisit as [x [->| ->]]; simpl in Hall; by inversion Hall.
  - destruct e1; simpl in Hall |- *;
      try (by apply (IH n Hall t1 e t2)).
    + apply Forall_cons in Hall as [_ Hall]. by apply (IH n Hall t1 e t2).
    + apply Forall_cons in Hall as [_ Hall]. by apply (IH n Hall t1 e t2).
    + rewrite Nat.add_succ_r. by apply (IH (S n) Hall t1 e t2).
Qed.

Lemma records_before_visits_nil n es :
  records_before_visits n es = [] -> pops es = [] /\ fetches es = [].
Proof.
  revert n. induction es as [|e es IH]; intros n Hnil; [done|].
  destruct e; simpl in *; try discriminate; by eapply IH.
Qed.

Lemma iteration_visits w base_domain robot_parser max_pages st x es n :
  iteration w base_domain robot_parser max_pages st x es ->
  Forall (fun k => k = n) (records_before_visits n es).
Proof.
  destruct 1; unfold upto_get; cbn [app records_before_visits];
    rewrite ?records_before_visits_Append; simpl; repeat constructor.
Qed.

(** C2. For a budget [max_pages] that is not negative, the returned
    dictionary has at most [max_pages] entries; every [popleft] and every
    GET of the run happens while the dictionary has fewer than [max_pages]
    entries, so that nothing is visited once the bound is reached; and with
    [max_pages = 0] nothing is fetched and the dictionary is empty. *)
Theorem budget_respected (w : World) (start_url : str) (max_pages : Z) :
  0 <= max_pages ->
  exists res st,
    returns w start_url max_pages res st /\
    (forall d, res = Normal d -> Z.of_nat (length d) <= max_pages) /\
    (forall t1 e t2, trace st = t1 ++ e :: t2 ->
       (exists x, e = Popleft x \/ e = Get x) ->
       Z.of_nat (length (records t1)) < max_pages) /\
    (max_pages = 0 ->
       fetches (trace st) = [] /\ forall d, res = Normal d -> d = []).
Proof.
  intros Hmax.
  destruct (urlparse w start_url) as [e|pr] eqn:Hpr.
  { exists (Raise e), empty_state. split; [by apply crawl_raises|].
    split_and!; [done| |done]. intros t1 e0 t2 Hsplit. by destruct t1. }
  set (I := fun st : State =>
    Z.of_nat (length (scraped_pages st)) <= max_pages /\
    Forall (fun k => Z.of_nat k < max_pages) (records_before_visits 0 (trace st))).
  destruct (crawl_returns w I start_url max_pages pr Hpr)
    as (st & [Hlen Hall] & Hinv & Hend).
  { split; [simpl; lia|].
    simpl. unfold robots_setup.
    by destruct (RobotFileParser.read _ _) as [[?|] ?]. }
  { intros st x q es Hinv [Hlen Hall] Hq Hlt Hit. split.
    - destruct (step_measure _ _ _ _ _ _ _ _ _ Hinv Hq Hit) as [[-> _]| ->]; lia.
    - rewrite trace_run_events, records_before_visits_app.
      apply Forall_app. split; [done|]. simpl.
      destruct Hinv as (_ & _ & _ & _ & _ & Hkeys).
      apply (f_equal length) in Hkeys. rewrite length_fmap in Hkeys.
      rewrite <- Hkeys.
      eapply Forall_impl; [by eapply iteration_visits|].
      simpl. intros k ->. done. }
  assert (exists res st',
    returns w start_url max_pages res st' /\
    (forall d, res = Normal d -> d = scraped_pages st) /\
    Forall (fun k => Z.of_nat k < max_pages)
      (records_before_visits 0 (trace st'))) as (res & st' & Hret & Hres & Hall').
  { destruct Hend as [[Hret _]|(e & Hret & _)].
    - eexists _, _. split; [exact Hret|]. split; [by intros d [= <-]|].
      simpl. rewrite records_before_visits_app. simpl. by rewrite app_nil_r.
    - eexists _, _. split; [exact Hret|]. by split. }
  exists res, st'. split; [exact Hret|].
  split_and!.
  - by intros d ->%Hres.
  - intros t1 e t2 Hsplit Hvisit.
    by apply (records_before_visits_split _ _ 0%nat Hall' t1 e t2).
  - intros ->. split.
    + destruct (records_before_visits 0 (trace st')) as [|k ks] eqn:Hrbv.
      * by apply records_before_visits_nil in Hrbv as [_ ?].
      * inversion Hall'; lia.
    + intros d ->%Hres. destruct (scraped_pages st); [done|simpl in Hlen; lia].
Qed.

(** A run of the four-page site with budget 4. *)
Lemma budget_respected_witness :
  0 <= 4 /\
  exists res st,
    returns BfsExample.site (u "https://site.test/") 4 res st /\
    (forall d, res = Normal d -> Z.of_nat (length d) <= 4) /\
    (forall t1 e t2, trace st = t1 ++ e :: t2 ->
       (exists x, e = Popleft x \/ e = Get x) ->
       Z.of_nat (length (records t1)) < 4) /\
    (4 = 0 ->
       fetches (trace st) = [] /\ forall d, res = Normal d -> d = []).
Proof.
  split; [lia|]. apply (budget_respected BfsExample.site). lia.
Defined.

(** ** Strings *)

Lemma startswith_prefix s p : startswith s p = true <-> p `prefix_of` s.
Proof.
  revert s. induction p as [|c p IH]; intros s; simpl.
  - split; [intros _; apply prefix_nil|done].
  - destruct s as [|d s].
    + split; [done|]. intros Hp. by apply prefix_nil_inv in Hp.
    + destruct (decide (c = d)) as [->|Hne].
      * rewrite IH. split; [apply prefix_cons|apply prefix_cons_inv_2].
      * split; [done|]. intros Hp. by apply prefix_cons_inv_1 in Hp.
Qed.

Lemma endswith_suffix s p : endswith s p = true <-> p `suffix_of` s.
Proof.
  unfold endswith. rewrite startswith_prefix. symmetry. apply suffix_prefix_reverse.
Qed.

(** What is stripped on the left are characters of the set, and what is
    left does not start with one. *)
Lemma lstrip_by_spec p s :
  exists pre, s = pre ++ lstrip_by p s /\
              Forall (fun c => p c = true) pre /\
              (forall c r, lstrip_by p s = c :: r -> p c = false).
Proof.
  induction s as [|c s (pre & Hs & Hpre & Hhd)]; simpl.
  - exists []. split_and!; [done|constructor|done].
  - destruct (p c) eqn:Hc.
    + exists (c :: pre). split_and!; [by rewrite Hs at 1|by constructor|done].
    + exists []. split_and!; [done|constructor|]. by intros ? ? [= <- <-].
Qed.

Lemma rstrip_by_spec p s :
  exists post, s = rstrip_by p s ++ post /\
               Forall (fun c => p c = true) post /\
               (forall c r, rstrip_by p s = r ++ [c] -> p c = false).
Proof.
  unfold rstrip_by.
  destruct (lstrip_by_spec p (reverse s)) as (pre & Hs & Hpre & Hhd).
  exists (reverse pre). split_and!.
  - rewrite <- reverse_app, <- Hs. by rewrite reverse_involutive.
  - by apply Forall_reverse.
  - intros c r Hr. apply (Hhd c (reverse r)).
    apply (f_equal reverse) in Hr.
    rewrite reverse_involutive, reverse_snoc in Hr. done.
Qed.

Lemma rstrip_slash_spec s :
  exists post, s = rstrip_slash s ++ post /\ Forall (fun c => c = 47%N) post.
Proof.
  destruct (rstrip_by_spec (fun c => (c =? 47)%N) s) as (post & Hs & Hpost & _).
  exists post. split; [done|].
  eapply Forall_impl; [exact Hpost|]. intros c Hc. by apply N.eqb_eq in Hc.
Qed.

(** ** Domain containment *)

Lemma link_candidate_spec w base_domain x h v :
  link_candidate w base_domain x h = inr (Some v) ->
  exists full p,
    v = rstrip_slash full /\ urlparse w full = inr p /\
    scheme p ∈ HTTP_SCHEMES /\ netloc p = base_domain.
Proof.
  unfold link_candidate. destruct (existsb _ _); [done|].
  destruct (urljoin w x (strip h)) as [e|joined]; [done|].
  destruct (urlparse w (split_hash_0 joined)) as [e|p] eqn:Hp; [done|].
  destruct (bool_decide (scheme p ∈ HTTP_SCHEMES)) eqn:Hs; [|done].
  destruct (bool_decide (netloc p = base_domain)) eqn:Hn; [|done].
  simpl. intros [= <-].
  apply bool_decide_eq_true in Hs. apply bool_decide_eq_true in Hn.
  by exists (split_hash_0 joined), p.
Qed.

(** C3. When [urlparse] gives the same scheme and network location with
    and without trailing slashes, and the seed has scheme http or https,
    then the call returns a dictionary or ends with the exception of the
    robots check, and either way every URL ever put into the frontier (the
    normalized seed and every URL appended) has scheme http or https and
    the network location of the seed. *)
Theorem domain_containment (w : World) (start_url : str) (max_pages : Z)
    (parsed_uri : ParseResult) :
  (forall url p, urlparse w url = inr p ->
     exists p', urlparse w (rstrip_slash url) = inr p' /\
                scheme p' = scheme p /\ netloc p' = netloc p) ->
  urlparse w start_url = inr parsed_uri ->
  scheme parsed_uri ∈ HTTP_SCHEMES ->
  exists res st,
    returns w start_url max_pages res st /\
    ((exists d, res = Normal d) \/
     (exists e,
        res = Raise e /\
        robots_check_raised w
          (robots_setup w (scheme parsed_uri) (netloc parsed_uri)).1 st e)) /\
    forall x, x ∈ rstrip_slash start_url :: appends (trace st) ->
      exists p, urlparse w x = inr p /\
                scheme p ∈ HTTP_SCHEMES /\
                netloc p = netloc parsed_uri.
Proof.
  intros Hrstrip Hpr Hscheme.
  set (good := fun x => exists p, urlparse w x = inr p /\
                 scheme p ∈ HTTP_SCHEMES /\ netloc p = netloc parsed_uri).
  destruct (crawl_returns w (fun st => Forall good (appends (trace st)))
              start_url max_pages parsed_uri Hpr) as (st & Hall & _ & Hend).
  { destruct (initial_state_events w start_url max_pages parsed_uri)
      as (_ & _ & _ & -> & _). constructor. }
  { intros st x q es Hinv Hall Hq Hlt Hit.
    rewrite trace_run_events, appends_app. apply Forall_app. split; [done|].
    destruct (iteration_summary _ _ _ _ _ _ _ _ Hq Hit)
      as (_ & _ & _ & _ & _ & _ & _ & _ & _ & Hfresh & _).
    apply Forall_forall. intros v Hv.
    destruct (Hfresh v Hv) as [_ [h Hc]].
    apply link_candidate_spec in Hc as (full & p & -> & Hp & Hs & Hn).
    destruct (Hrstrip _ _ Hp) as (p' & Hp' & Hs' & Hn').
    exists p'. by rewrite Hs', Hn'. }
  assert (exists res st',
    returns w start_url max_pages res st' /\
    ((exists d, res = Normal d) \/
     (exists e,
        res = Raise e /\
        robots_check_raised w
          (robots_setup w (scheme parsed_uri) (netloc parsed_uri)).1 st' e)) /\
    appends (trace st') = appends (trace st)) as (res & st' & Hret & Hres & Ha).
  { destruct Hend as [[Hret _]|(e & Hret & Hraise)]; eexists _, _;
      (split; [exact Hret|]).
    - split; [left; by eexists|].
      by destruct (emit_print_events MsgCrawlDone st) as (_ & _ & _ & Ha & _).
    - split; [right; by exists e|done]. }
  exists res, st'. split; [exact Hret|]. split; [exact Hres|]. rewrite Ha.
  intros x [->|Hx]%elem_of_cons.
  - destruct (Hrstrip _ _ Hpr) as (p' & Hp' & Hs' & Hn').
    exists p'. by rewrite Hs', Hn'.
  - by apply (proj1 (Forall_forall _ _) Hall).
Qed.

(** The model of [urlparse] gives the same scheme and network location
    with and without trailing slashes. *)
Module SyntheticSiteFacts.
Import SyntheticSite.

Lemma take_until_app_stop p r t :
  Forall (fun c => p c = true) t -> take_until p (r ++ t) = take_until p r.
Proof.
  intros Ht. induction r as [|c r IH]; simpl.
  - destruct Ht as [|c t Hc _]; [done|]. simpl. by rewrite Hc.
  - destruct (p c); [done|]. by rewrite IH.
Qed.

Lemma until_app_pass p s t :
  Forall (fun c => p c = false) t ->
  match drop_until p s with
  | [] => take_until p (s ++ t) = s ++ t /\ drop_until p (s ++ t) = [] /\
          take_until p s = s
  | c :: r => take_until p (s ++ t) = take_until p s /\
              drop_until p (s ++ t) = c :: r ++ t
  end.
Proof.
  intros Ht. induction s as [|c s IH]; simpl.
  - induction Ht as [|c t Hc _ (IH1 & IH2 & _)]; [done|].
    simpl. rewrite Hc. by rewrite IH1, IH2.
  - destruct (p c) eqn:Hc; [done|].
    destruct (drop_until p s) as [|c' r].
    + destruct IH as (-> & -> & ->). done.
    + destruct IH as (-> & ->). done.
Qed.

Lemma split_scheme_slashes s t :
  Forall (fun c => c = 47%N) t ->
  split_scheme (s ++ t) = ((split_scheme s).1, (split_scheme s).2 ++ t).
Proof.
  intros Ht. unfold split_scheme.
  pose proof (until_app_pass (fun c => (c =? 58)%N) s t) as Happ.
  destruct (drop_until (fun c => (c =? 58)%N) s) as [|c r].
  - destruct Happ as (-> & -> & ->).
    { eapply Forall_impl; [exact Ht|]. by intros c ->. }
    destruct s as [|c s]; simpl; [by destruct t|done].
  - destruct Happ as (-> & ->).
    { eapply Forall_impl; [exact Ht|]. by intros c' ->. }
    by destruct (take_until _ s).
Qed.

Lemma split_netloc_slashes rest t :
  Forall (fun c => c = 47%N) t ->
  (split_netloc (rest ++ t)).1 = (split_netloc rest).1.
Proof.
  intros Ht.
  assert (Hstop : forall r, take_until is_delim (r ++ t) = take_until is_delim r).
  { intros r. apply take_until_app_stop.
    eapply Forall_impl; [exact Ht|]. by intros c ->. }
  assert (Hnil : forall t', Forall (fun c => c = 47%N) t' ->
                            (split_netloc t').1 = []).
  { intros t' Ht'. destruct Ht' as [|c t' -> Ht']; [done|].
    destruct Ht' as [|c t' -> Ht']; [done|]. simpl.
    by destruct Ht' as [|c t' -> Ht']. }
  destruct rest as [|c1 rest]; simpl.
  { by apply Hnil. }
  destruct rest as [|c2 rest]; simpl.
  - destruct Ht as [|c t -> Ht]; [done|]. simpl.
    destruct (c1 =? 47)%N; [|done]. simpl.
    by destruct Ht as [|c t -> Ht].
  - destruct ((c1 =? 47) && (c2 =? 47))%N; [|done]. simpl. apply Hstop.
Qed.

Lemma parse_url_rstrip url p :
  parse_url url = inr p ->
  exists p', parse_url (rstrip_slash url) = inr p' /\
             scheme p' = scheme p /\ netloc p' = netloc p.
Proof.
  destruct (rstrip_slash_spec url) as (t & Hurl & Ht).
  revert Hurl. generalize (rstrip_slash url). intros s ->.
  unfold parse_url. rewrite (split_scheme_slashes s t Ht).
  destruct (split_scheme s) as [sch rest]. simpl.
  pose proof (split_netloc_slashes rest t Ht) as Hnl.
  destruct (split_netloc (rest ++ t)) as [nl r1].
  destruct (split_netloc rest) as [nl' r2]. simpl in Hnl. subst nl'.
  destruct (bracket_ok nl); [|done].
  intros [= <-]. by eexists.
Qed.

End SyntheticSiteFacts.

(** A run on the site whose home page links to a page of the site, to a
    mail address and to another site. *)
Lemma domain_containment_witness :
  exists res st,
    returns ScenarioExample.site (u "https://example.test/") 4 res st /\
    ((exists d, res = Normal d) \/
     (exists e,
        res = Raise e /\
        robots_check_raised ScenarioExample.site
          (robots_setup ScenarioExample.site (u "https") (u "example.test")).1
          st e)) /\
    forall x, x ∈ rstrip_slash (u "https://example.test/") :: appends (trace st) ->
      exists p, urlparse ScenarioExample.site x = inr p /\
                scheme p ∈ HTTP_SCHEMES /\
                netloc p = u "example.test".
Proof.
  apply (domain_containment ScenarioExample.site (u "https://example.test/") 4
           {| scheme := u "https"; netloc := u "example.test" |}).
  - apply SyntheticSiteFacts.parse_url_rstrip.
  - reflexivity.
  - apply list_elem_of_further, list_elem_of_here.
Defined.

(** ** The extension filter *)

Lemma is_excluded_spec url :
  is_excluded url = true <->
  exists ext, ext ∈ EXCLUDED_EXTENSIONS /\ ext `suffix_of` lower url.
Proof.
  unfold is_excluded. rewrite existsb_exists.
  split; intros (ext & Hin & Hsuf); exists ext.
  - split; [by apply list_elem_of_In|by apply endswith_suffix].
  - split; [by apply list_elem_of_In|by apply endswith_suffix].
Qed.

Lemma loop_body_excluded w base_domain robot_parser max_pages st x q :
  urls_to_visit st = x :: q -> is_excluded x = true ->
  loop_body w base_domain robot_parser max_pages st =
  (Continue,
   {| urls_to_visit := q; seen_urls := seen_urls st;
      scraped_pages := scraped_pages st;
      trace := trace st ++ [Popleft x] |}).
Proof.
  intros Hq Hex. unfold loop_body, bind, popleft. by rewrite Hq, Hex.
Qed.

(** C7 (the code does not do it). The source announces an exclusion by
    file extension, and the claim puts the test on the path of the URL. The
    code lower-cases the whole URL string and excludes the URL exactly when
    that string ends with one of the configured suffixes. The two agree on
    [https://x.com/doc.PDF] (excluded) and [https://x.com/page] (not
    excluded), and an excluded URL at the head of the frontier is popped
    and nothing else happens. They differ as soon as the path is not the
    end of the string: [https://example.zip] has an empty path and no file
    at all, and is excluded, so that a crawl started there fetches nothing;
    [https://site.test/doc.pdf?v=2] has a path that ends in [.pdf], and is
    not excluded, so that a page linking to it has it fetched. *)
Theorem extension_filter_tests_whole_url :
  (forall url,
     is_excluded url = true <->
     exists ext, ext ∈ EXCLUDED_EXTENSIONS /\ ext `suffix_of` lower url) /\
  (is_excluded (u "https://x.com/doc.PDF") = true /\
   is_excluded (u "https://x.com/page") = false) /\
  (forall w base_domain robot_parser max_pages st x q,
     urls_to_visit st = x :: q -> is_excluded x = true ->
     loop_body w base_domain robot_parser max_pages st =
     (Continue,
      {| urls_to_visit := q; seen_urls := seen_urls st;
         scraped_pages := scraped_pages st;
         trace := trace st ++ [Popleft x] |})) /\
  (SyntheticSite.url_path (u "https://example.zip") = [] /\
   is_excluded_by_path (u "https://example.zip") = false /\
   is_excluded (u "https://example.zip") = true) /\
  (SyntheticSite.url_path ExtensionExample.doc_url = u "/doc.pdf" /\
   is_excluded_by_path ExtensionExample.doc_url = true /\
   is_excluded ExtensionExample.doc_url = false) /\
  (exists st,
     returns ScenarioExample.site (u "https://example.zip/") 5 (Normal []) st /\
     pops (trace st) = [u "https://example.zip"] /\
     fetches (trace st) = []) /\
  (exists st,
     returns ExtensionExample.site (u "https://site.test/") 5
       (Normal [(ExtensionExample.A, u "A")]) st /\
     fetches (trace st) = [ExtensionExample.A; ExtensionExample.doc_url]).
Proof.
  split_and!; try (by vm_compute).
  - apply is_excluded_spec.
  - apply loop_body_excluded.
  - eexists. split; [exists 2%nat; vm_compute; reflexivity|].
    by vm_compute.
  - eexists. split; [exists 3%nat; vm_compute; reflexivity|].
    by vm_compute.
Qed.

(** ** Comment stripping *)

(** C8 (the code does not do it). The substitution that is meant to remove
    the HTML comments has an empty pattern and an empty replacement, so it
    returns its argument: the string handed to the parser is the decoded
    body as it is. On a site whose page holds a comment, the parser is
    given that comment. *)
Theorem comments_reach_the_parser :
  (forall html_content, re_sub_empty_pattern [] html_content = html_content) /\
  contains (u "<!--") CommentExample.body = true /\
  exists st,
    returns CommentExample.site (u "https://site.test/") 1
      (Normal [(CommentExample.seed, u "T")]) st /\
    parses (trace st) = [CommentExample.body].
Proof.
  split; [apply re_sub_empty_pattern_nil|].
  split; [by vm_compute|].
  eexists. split.
  - exists 2%nat. vm_compute. reflexivity.
  - by vm_compute.
Qed.

(** ** The delay between requests *)

(** An iteration whose GET is answered by something that is not a page
    (another status than 200, or a content type without [text/html]) logs
    the GET and no [sleep]. *)
Lemma skip_without_sleep w base_domain robot_parser max_pages st x es response :
  iteration w base_domain robot_parser max_pages st x es ->
  admitted w robot_parser x ->
  answer w max_pages st x = inr response ->
  ~ is_page response ->
  fetches es = [x] /\ sleeps es = [].
Proof.
  intros Hit [Hex Hrob] Hans Hnot.
  destruct Hit as [Hex'|Hex' Hrob'|e Hadm Ha|r Hadm Ha Hst|r Hadm Ha Hst Hct
                  |r e Hadm Ha Hpage|r soup vs Hadm Ha Hpage|r soup vs e Hadm Ha Hpage
                  |e Hex' Hraise];
    try congruence; try done;
    rewrite Hans in Ha; simplify_eq; done.
Qed.

(** An iteration whose GET raises, or is answered by a page, ends with one
    [sleep], whether the page is parsed and its links are extracted or an
    exception is caught on the way. *)
Lemma sleep_after_failure_or_page w base_domain robot_parser max_pages st x es :
  iteration w base_domain robot_parser max_pages st x es ->
  admitted w robot_parser x ->
  (exists e, answer w max_pages st x = inl e) \/
  (exists response, answer w max_pages st x = inr response /\ is_page response) ->
  fetches es = [x] /\ sleeps es = [tt].
Proof.
  intros Hit [Hex Hrob] Hans.
  destruct Hit as [Hex'|Hex' Hrob'|e Hadm Ha|r Hadm Ha Hst|r Hadm Ha Hst Hct
                  |r e Hadm Ha Hpage|r soup vs Hadm Ha Hpage|r soup vs e Hadm Ha Hpage
                  |e Hex' Hraise];
    try congruence; try done.
  - destruct Hans as [[e Hans]|(r' & Hans & [Hst' _])]; [congruence|].
    rewrite Hans in Ha. by simplify_eq.
  - destruct Hans as [[e Hans]|(r' & Hans & [_ Hct'])]; [congruence|].
    rewrite Hans in Ha. simplify_eq. congruence.
  - split.
    + by apply (recorded_events max_pages st x (text r) _ vs [Sleep]).
    + unfold upto_get. cbn [app].
      change (?a :: ?b :: ?c :: ?d :: ?e :: ?l) with ([a; b; c; d; e] ++ l).
      by rewrite !sleeps_app, sleeps_Append.
  - split.
    + by apply (recorded_events max_pages st x (text r) _ vs
                  [Print (error_message e); Sleep]).
    + unfold upto_get. cbn [app].
      change (?a :: ?b :: ?c :: ?d :: ?e :: ?l) with ([a; b; c; d; e] ++ l).
      by rewrite !sleeps_app, sleeps_Append.
Qed.

(** C9 (the code does not do it). After a GET that is answered with
    another status than 200, or with a content type that is not HTML, the
    [continue] statement leaves the iteration before [time.sleep] is
    reached, while the iterations whose GET raises or is answered by a page
    do reach it. On a site whose first page links to a missing page and to
    a page that exists, the GET of the missing page is followed by the GET
    of the next page with no [sleep] in between. *)
Theorem no_delay_after_skip :
  (forall w base_domain robot_parser max_pages st x es response,
     iteration w base_domain robot_parser max_pages st x es ->
     admitted w robot_parser x ->
     answer w max_pages st x = inr response ->
     ~ is_page response ->
     fetches es = [x] /\ sleeps es = []) /\
  (forall w base_domain robot_parser max_pages st x es,
     iteration w base_domain robot_parser max_pages st x es ->
     admitted w robot_parser x ->
     (exists e, answer w max_pages st x = inl e) \/
     (exists response, answer w max_pages st x = inr response /\
                       is_page response) ->
     fetches es = [x] /\ sleeps es = [tt]) /\
  exists d st t1 t2,
    returns StatusExample.site (u "https://site.test/") 5 (Normal d) st /\
    trace st =
      t1 ++
      [Get StatusExample.B; Print (MsgSkipStatus 404);
       Popleft StatusExample.C;
       Print (MsgProcessing 2 5 StatusExample.C);
       Get StatusExample.C] ++ t2.
Proof.
  split; [apply skip_without_sleep|].
  split; [apply sleep_after_failure_or_page|].
  assert (exists d st,
    crawl_same_domain StatusExample.site 4 (u "https://site.test/") 5 =
      Some (Normal d, st) /\
    take 5 (drop 15 (trace st)) =
      [Get StatusExample.B; Print (MsgSkipStatus 404);
       Popleft StatusExample.C;
       Print (MsgProcessing 2 5 StatusExample.C);
       Get StatusExample.C]) as (d & st & Hrun & Hmid).
  { eexists _, _. split; vm_compute; reflexivity. }
  exists d, st, (take 15 (trace st)), (drop 5 (drop 15 (trace st))).
  split; [by exists 4%nat|].
  by rewrite <- Hmid, take_drop, take_drop.
Qed.

(** ** robots.txt *)

(** When [read()] raises, the parser stays as it was created, and
    [can_fetch] then answers no for every URL (before it parses the
    URL). *)
Lemma robots_read_failure w base_scheme base_domain e :
  urlopen_robots w (base_scheme ++ u "://" ++ base_domain ++ u "/robots.txt")
    = ReadRaises e ->
  (robots_setup w base_scheme base_domain).1 = RobotFileParser.init /\
  forall x,
    RobotFileParser.can_fetch w (robots_setup w base_scheme base_domain).1
      USER_AGENT x = inr false.
Proof.
  intros Hread. unfold robots_setup. rewrite Hread. simpl. done.
Qed.

(** C5 (the code does not do it). When loading robots.txt raises, the
    source prints a warning and goes on with the parser as it is; a
    [RobotFileParser] that has read nothing allows nothing, so the gate
    refuses every URL. On the four-page site with a robots.txt that cannot
    be loaded, the seed is popped and skipped, nothing is fetched, and the
    dictionary returned is empty. *)
Theorem robots_failure_blocks_everything :
  (forall w base_scheme base_domain e,
     urlopen_robots w (base_scheme ++ u "://" ++ base_domain ++ u "/robots.txt")
       = ReadRaises e ->
     forall x,
       RobotFileParser.can_fetch w (robots_setup w base_scheme base_domain).1
         USER_AGENT x = inr false) /\
  exists st,
    returns RobotsFailureExample.site (u "https://site.test/") 4 (Normal []) st /\
    fetches (trace st) = [] /\
    trace st =
      [RobotsRead (u "https://site.test/robots.txt");
       Print (MsgRobotsWarning (OtherException (u "<urlopen error timed out>")));
       Print MsgCrawlStart; Print (MsgTargetDomain (u "site.test"));
       Print (MsgMaxPages 4);
       Popleft (u "https://site.test");
       Print (MsgRobotsSkip (u "https://site.test"));
       Print MsgCrawlDone].
Proof.
  split.
  - intros w base_scheme base_domain e Hread.
    by apply robots_read_failure in Hread as [_ ?].
  - eexists. split; [exists 2%nat; vm_compute; reflexivity|].
    by vm_compute.
Qed.

(** ** Failures of single pages *)






Lemma frontier_head_fresh seed st x q :
  frontier_inv seed st -> urls_to_visit st = x :: q ->
  (x ∉ pops (trace st)) /\ (x ∉ fetches (trace st)) /\ (x ∉ records (trace st)).
Proof.
  intros (Hfifo & Hnd & _ & Hfp & Hrf & _) Hq. rewrite Hq in Hfifo.
  assert (Hx : x ∉ pops (trace st)).
  { rewrite <- Hfifo in Hnd. apply NoDup_app in Hnd as (_ & Hdis & _).
    intros Hin. apply (Hdis _ Hin). left. }
  split_and!; [done| |].
  - intros Hin. apply Hx. by eapply elem_of_sublist.
  - intros Hin. apply Hx. eapply elem_of_sublist; [exact Hin|]. by etrans.
Qed.




(** ** The recorded title *)

(** [strip] removes white space at both ends and nothing else. *)
Lemma strip_spec s :
  exists pre post,
    s = pre ++ strip s ++ post /\
    Forall (fun c => isspace c = true) pre /\
    Forall (fun c => isspace c = true) post /\
    (forall c r, strip s = c :: r -> isspace c = false) /\
    (forall c r, strip s = r ++ [c] -> isspace c = false).
Proof.
  unfold strip.
  destruct (lstrip_by_spec isspace s) as (pre & Hs & Hpre & Hhd).
  destruct (rstrip_by_spec isspace (lstrip_by isspace s)) as (post & Hl & Hpost & Hlast).
  exists pre, post. split_and!; try done.
  - by rewrite <- Hl.
  - intros c r Hr. apply (Hhd c (r ++ post)). rewrite Hl at 1. by rewrite Hr.
Qed.

Lemma iteration_items w base_domain robot_parser max_pages st x es :
  iteration w base_domain robot_parser max_pages st x es ->
  (items es = [] /\ scraped_pages (run_events es st) = scraped_pages st) \/
  exists t, items es = [(x, t)] /\
            scraped_pages (run_events es st) = dict_set x t (scraped_pages st).
Proof.
  intros Hit. iteration_cases Hit; try (by left); right;
    exists (title_text_of (find_title soup)); split.
  - unfold upto_get. cbn [app].
    change (?a :: ?b :: ?c :: ?d :: ?e :: ?l) with ([a; b; c; d; e] ++ l).
    by rewrite !items_app, items_Append.
  - by apply (recorded_events max_pages st x (text r) _ vs [Sleep]).
  - unfold upto_get. cbn [app].
    change (?a :: ?b :: ?c :: ?d :: ?e :: ?l) with ([a; b; c; d; e] ++ l).
    by rewrite !items_app, items_Append.
  - by apply (recorded_events max_pages st x (text r) _ vs
                [Print (error_message e); Sleep]).
Qed.

(** *** Where an event sits in a trace *)

Lemma app_split_event {A} (l1 l2 t1 t2 : list A) (e : A) :
  l1 ++ l2 = t1 ++ e :: t2 ->
  (exists t2', l1 = t1 ++ e :: t2' /\ t2 = t2' ++ l2) \/
  (exists t1', t1 = l1 ++ t1' /\ l2 = t1' ++ e :: t2).
Proof.
  revert t1. induction l1 as [|a l1 IH]; intros t1 Heq.
  - right. by exists t1.
  - destruct t1 as [|b t1]; simpl in Heq; injection Heq as -> Heq.
    + left. by exists l1.
    + destruct (IH _ Heq) as [(t2' & -> & ->)|(t1' & -> & ->)].
      * left. by exists t2'.
      * right. by exists t1'.
Qed.

Lemma cons_split {A} (a e : A) (l t1 t2 : list A) :
  a :: l = t1 ++ e :: t2 ->
  (t1 = [] /\ a = e /\ l = t2) \/
  (exists t1', t1 = a :: t1' /\ l = t1' ++ e :: t2).
Proof.
  destruct t1 as [|b t1]; simpl; intros [= -> ->]; [by left|].
  right. by exists t1.
Qed.

Lemma no_get_split l t1 y t2 : fetches l = [] -> l <> t1 ++ Get y :: t2.
Proof.
  intros Hf ->. rewrite fetches_app in Hf. simpl in Hf.
  by destruct (fetches t1).
Qed.

Lemma no_item_split l t1 y t t2 : items l = [] -> l <> t1 ++ SetItem y t :: t2.
Proof.
  intros Hf ->. rewrite items_app in Hf. simpl in Hf.
  by destruct (items t1).
Qed.

Lemma items_elem x t tr :
  (x, t) ∈ items tr <-> exists t1 t2, tr = t1 ++ SetItem x t :: t2.
Proof.
  split.
  - induction tr as [|e tr IH]; simpl; [by intros ?%elem_of_nil|].
    intros Hin.
    assert (Hrec : (x, t) ∈ items tr -> exists t1 t2, e :: tr = t1 ++ SetItem x t :: t2).
    { intros (t1 & t2 & ->)%IH. by exists (e :: t1), t2. }
    destruct e; try (by apply Hrec).
    apply elem_of_cons in Hin as [[= <- <-]|Hin]; [by exists [], tr|by apply Hrec].
  - intros (t1 & t2 & ->). rewrite items_app. apply elem_of_app. right. left.
Qed.

(** A URL that is fetched once is fetched at one place of the trace. *)
Lemma get_split_unique tr x t1 t2 t1' t2' :
  NoDup (fetches tr) ->
  tr = t1 ++ Get x :: t2 -> tr = t1' ++ Get x :: t2' -> t1 = t1'.
Proof.
  intros Hnd -> Heq. revert t1' Heq Hnd.
  induction t1 as [|a t1 IH]; intros [|b t1'] Heq Hnd; simpl in *; simplify_eq.
  - done.
  - exfalso. apply NoDup_cons in Hnd as [Hx _]. apply Hx.
    rewrite fetches_app. apply elem_of_app. right. left.
  - exfalso. apply NoDup_cons in Hnd as [Hx _]. apply Hx.
    rewrite fetches_app. apply elem_of_app. right. left.
  - f_equal. apply IH; [done|].
    destruct b; simpl in Hnd; try done. by apply NoDup_cons in Hnd as [_ ?].
Qed.

(** *** The GET and the assignment of an iteration *)

Section PageFacts.
Variable w : World.
Variable base_domain : str.
Variable robot_parser : RobotFileParser.t.
Variable max_pages : Z.

Lemma upto_get_split st x rest t1 y t2 :
  fetches rest = [] ->
  upto_get max_pages st x ++ rest = t1 ++ Get y :: t2 ->
  y = x /\ trace st ++ t1 = trace st ++ removelast (upto_get max_pages st x) /\
  t2 = rest.
Proof.
  intros Hrest Heq. unfold upto_get in *. cbn [app] in Heq.
  apply cons_split in Heq as [(_ & [=] & _)|(ta & -> & Heq)].
  apply cons_split in Heq as [(_ & [=] & _)|(tb & -> & Heq)].
  apply cons_split in Heq as [(-> & [= ->] & <-)|(tc & -> & Heq)]; [done|].
  by apply no_get_split in Heq.
Qed.

(** The GET of an iteration is that of its URL, it is answered on the
    history of the run up to it, and when the answer is a page that the
    parser accepts, the assignment of its title follows. *)
Lemma iteration_get_split st x es t1 y t2 :
  iteration w base_domain robot_parser max_pages st x es ->
  es = t1 ++ Get y :: t2 ->
  y = x /\
  session_get w (trace st ++ t1) USER_AGENT y = answer w max_pages st x /\
  forall response soup,
    answer w max_pages st x = inr response -> is_page response ->
    BeautifulSoup w (text response) = inr soup ->
    exists t3,
      t2 = Parse (text response) ::
           SetItem x (title_text_of (find_title soup)) :: t3.
Proof.
  intros Hit Hes.
  assert (Hget : forall rest, fetches rest = [] ->
    es = upto_get max_pages st x ++ rest ->
    y = x /\
    session_get w (trace st ++ t1) USER_AGENT y = answer w max_pages st x /\
    t2 = rest).
  { intros rest Hrest ->.
    destruct (upto_get_split st x rest t1 y t2 Hrest Hes) as (-> & -> & ->).
    done. }
  assert (Hno : forall r0 t0 vs rest, fetches rest = [] ->
    fetches ([Parse r0; SetItem x t0] ++ (Append <$> vs) ++ rest) = []).
  { intros r0 t0 vs rest Hrest. cbn [app]. change (?a :: ?b :: ?l) with ([a; b] ++ l).
    by rewrite !fetches_app, fetches_Append, Hrest. }
  iteration_cases Hit; try (by apply no_get_split in Hes);
    match type of Hes with
    | upto_get _ _ _ ++ ?rest = _ =>
        destruct (Hget rest) as (-> & Hs & ->);
          [first [done | by destruct e | apply Hno; done | apply Hno; by destruct e]
          |done|]
    end; (split_and!; [done..|]).
  - intros response soup Hans. congruence.
  - intros response soup Hans [Hok _]. congruence.
  - intros response soup Hans [_ Hok]. congruence.
  - intros response soup Hans _ Hok. congruence.
  - intros response soup' Hans _ Hok.
    assert (response = r) as -> by congruence.
    assert (soup' = soup) as -> by congruence. by eexists.
  - intros response soup' Hans _ Hok.
    assert (response = r) as -> by congruence.
    assert (soup' = soup) as -> by congruence. by eexists.
Qed.

(** The assignment of an iteration follows the GET of its URL and the
    parsing of the answer, which is a page, and assigns the title of the
    parsed document. *)
Lemma iteration_item_split st x es t1 y t t2 :
  iteration w base_domain robot_parser max_pages st x es ->
  es = t1 ++ SetItem y t :: t2 ->
  exists response soup,
    y = x /\
    t1 = upto_get max_pages st x ++ [Parse (text response)] /\
    answer w max_pages st x = inr response /\ is_page response /\
    BeautifulSoup w (text response) = inr soup /\
    t = title_text_of (find_title soup).
Proof.
  intros Hit Hes.
  assert (Hitem : forall response soup rest, items rest = [] ->
    es = upto_get max_pages st x ++
         [Parse (text response); SetItem x (title_text_of (find_title soup))] ++ rest ->
    y = x /\ t1 = upto_get max_pages st x ++ [Parse (text response)] /\
    t = title_text_of (find_title soup)).
  { intros response soup rest Hrest Heq. rewrite Heq in Hes.
    unfold upto_get in *. cbn [app] in Hes.
    apply cons_split in Hes as [(_ & [=] & _)|(ta & -> & Hes)].
    apply cons_split in Hes as [(_ & [=] & _)|(tb & -> & Hes)].
    apply cons_split in Hes as [(_ & [=] & _)|(tc & -> & Hes)].
    apply cons_split in Hes as [(_ & [=] & _)|(td & -> & Hes)].
    apply cons_split in Hes as [(-> & [= -> ->] & _)|(te & -> & Hes)]; [done|].
    by apply no_item_split in Hes. }
  iteration_cases Hit; try (by apply no_item_split in Hes).
  - destruct (Hitem r soup ((Append <$> vs) ++ [Sleep])) as (-> & -> & ->);
      [by rewrite items_app, items_Append|done|].
    by exists r, soup.
  - destruct (Hitem r soup ((Append <$> vs) ++ [Print (error_message e); Sleep]))
      as (-> & -> & ->); [rewrite items_app, items_Append; by destruct e|done|].
    by exists r, soup.
Qed.

End PageFacts.

(** *** The pages of a run *)

(** Every call ends in a state in which: no URL was fetched twice; the
    dictionary is the list of the assignments made; every GET that was
    answered, on the history of the run up to it, by a page that the parser
    accepted is followed by the parsing of the page and the assignment of
    its title; and every assignment follows such a GET. *)
Lemma crawl_pages (w : World) (start_url : str) (max_pages : Z) :
  exists res st,
    returns w start_url max_pages res st /\
    NoDup (fetches (trace st)) /\
    (forall d, res = Normal d -> d = items (trace st)) /\
    pages_are_recorded w (trace st) /\
    entries_are_pages w (trace st).
Proof.
  assert (Hext : forall tr fin,
    fetches fin = [] -> items fin = [] ->
    pages_are_recorded w tr /\ entries_are_pages w tr ->
    pages_are_recorded w (tr ++ fin) /\ entries_are_pages w (tr ++ fin)).
  { intros tr fin Hf Hi [HA HB]. split.
    - intros t1 y t2 response soup Hsplit Hsg Hpage Hsoup.
      apply app_split_event in Hsplit as [(t2' & Htr & ->)|(t1' & -> & Hes)].
      + destruct (HA _ _ _ _ _ Htr Hsg Hpage Hsoup) as [t3 ->].
        by exists (t3 ++ fin).
      + by apply no_get_split in Hes.
    - intros t1 y t t2 Hsplit.
      apply app_split_event in Hsplit as [(t2' & Htr & ->)|(t1' & -> & Hes)].
      + by eapply HB.
      + by apply no_item_split in Hes. }
  destruct (urlparse w start_url) as [e|pr] eqn:Hpr.
  { exists (Raise e), empty_state. split; [by apply crawl_raises|].
    split_and!; [constructor|done| |].
    - intros t1 y t2 response soup Hsplit. by destruct t1.
    - intros t1 y t t2 Hsplit. by destruct t1. }
  set (I := fun st : State =>
    scraped_pages st = items (trace st) /\
    pages_are_recorded w (trace st) /\ entries_are_pages w (trace st)).
  destruct (crawl_returns w I start_url max_pages pr Hpr)
    as (st & (Hd & HA & HB) & Hinv & Hend).
  { assert (Hf : fetches (trace (initial_state w start_url max_pages pr)) = [])
      by (by destruct (initial_state_events w start_url max_pages pr) as (_ & ? & _)).
    assert (Hi : items (trace (initial_state w start_url max_pages pr)) = []).
    { simpl. rewrite items_app. unfold robots_setup.
      by destruct (RobotFileParser.read _ _) as [[?|] ?]. }
    split_and!.
    - by rewrite Hi.
    - intros t1 y t2 response soup Hsplit. by apply no_get_split in Hsplit.
    - intros t1 y t t2 Hsplit. by apply no_item_split in Hsplit. }
  { intros st x q es Hinv (Hd & HA & HB) Hq Hlt Hit. split_and!.
    - destruct (frontier_head_fresh _ _ _ _ Hinv Hq) as (_ & _ & Hxr).
      destruct Hinv as (_ & _ & _ & _ & _ & Hkeys).
      rewrite trace_run_events, items_app, <- Hd.
      destruct (iteration_items _ _ _ _ _ _ _ Hit) as [[-> ->]|(t & -> & ->)].
      + by rewrite app_nil_r.
      + apply dict_set_fresh. by rewrite Hkeys.
    - rewrite trace_run_events.
      intros t1 y t2 response soup Hsplit Hsg Hpage Hsoup.
      apply app_split_event in Hsplit as [(t2' & Htr & ->)|(t1' & -> & Hes)].
      + destruct (HA _ _ _ _ _ Htr Hsg Hpage Hsoup) as [t3 ->].
        by exists (t3 ++ es).
      + destruct (iteration_get_split _ _ _ _ _ _ _ _ _ _ Hit Hes)
          as (-> & Hans & Hrec).
        rewrite Hans in Hsg. by apply Hrec.
    - rewrite trace_run_events. intros t1 y t t2 Hsplit.
      apply app_split_event in Hsplit as [(t2' & Htr & ->)|(t1' & -> & Hes)].
      + by eapply HB.
      + destruct (iteration_item_split _ _ _ _ _ _ _ _ _ _ _ Hit Hes)
          as (response & soup & -> & -> & Hans & Hpage & Hsoup & ->).
        exists (trace st ++
                [Popleft x;
                 Print (MsgProcessing
                          (Z.of_nat (length (scraped_pages st)) + 1) max_pages x)]),
          response, soup.
        split_and!; try done. unfold upto_get. cbn [app].
        by rewrite <- !app_assoc. }
  destruct Hinv as (Hfifo & Hnd & _ & Hfp & _).
  assert (Hfn : NoDup (fetches (trace st))).
  { eapply sublist_NoDup; [|exact Hfp].
    rewrite <- Hfifo in Hnd. by apply NoDup_app in Hnd as (? & _). }
  destruct Hend as [[Hret _]|(e & Hret & _)].
  - eexists _, _. split; [exact Hret|]. simpl.
    destruct (Hext (trace st) [Print MsgCrawlDone]) as [HA' HB']; [done..|].
    split_and!; [|intros d [= <-]| |]; try done.
    + rewrite fetches_app. simpl. by rewrite app_nil_r.
    + rewrite items_app. simpl. by rewrite app_nil_r.
  - eexists _, _. split; [exact Hret|]. by split_and!.
Qed.

(** C10. The title recorded for a page is the sentinel when the document
    has no [<title>] element and, alike, when the element has no single
    string ([.string] is [None]); when the element has a string (a string
    that is not empty: Python takes the empty string for false), it is that
    string without the white space at its two ends. In every run, a GET
    that is answered (on the history of the run up to it) by a page which
    the parser accepts is followed by the assignment of the title so
    computed from the parsed document, and the returned dictionary holds
    that entry; and every entry of the returned dictionary was assigned in
    this way, after the GET of its URL. On a site with a title written with
    white space around it, a page without a title element and a page whose
    title element has no string, the dictionary holds the stripped title
    and twice the sentinel. *)
Theorem recorded_title (w : World) (start_url : str) (max_pages : Z) :
  title_text_of None = NO_TITLE /\
  (forall tag, tag_string tag = None -> title_text_of (Some tag) = NO_TITLE) /\
  (forall tag s, tag_string tag = Some s -> s <> [] ->
     title_text_of (Some tag) = strip s /\
     exists pre post,
       s = pre ++ strip s ++ post /\
       Forall (fun c => isspace c = true) pre /\
       Forall (fun c => isspace c = true) post /\
       (forall c r, strip s = c :: r -> isspace c = false) /\
       (forall c r, strip s = r ++ [c] -> isspace c = false)) /\
  (exists res st,
    returns w start_url max_pages res st /\
    (forall t1 x t2 response soup,
       trace st = t1 ++ Get x :: t2 ->
       session_get w t1 USER_AGENT x = inr response ->
       status_code response = 200 ->
       contains TEXT_HTML
         (lower (default [] (content_type_header response))) = true ->
       BeautifulSoup w (text response) = inr soup ->
       (exists t3,
          t2 = Parse (text response) ::
               SetItem x (title_text_of (find_title soup)) :: t3) /\
       forall d, res = Normal d -> (x, title_text_of (find_title soup)) ∈ d) /\
    (forall d, res = Normal d ->
       forall x t, (x, t) ∈ d ->
         exists t1 t2 response soup,
           trace st =
             t1 ++ Get x :: Parse (text response) :: SetItem x t :: t2 /\
           session_get w t1 USER_AGENT x = inr response /\
           BeautifulSoup w (text response) = inr soup /\
           t = title_text_of (find_title soup))) /\
  exists st,
    returns TitleExample.site (u "https://site.test/") 5
      (Normal [(TitleExample.A, u "Home page");
               (TitleExample.B, NO_TITLE);
               (TitleExample.C, NO_TITLE)]) st /\
    fetches (trace st) = [TitleExample.A; TitleExample.B; TitleExample.C].
Proof.
  split; [done|]. split.
  { intros tag Htag. simpl. by rewrite Htag. }
  split.
  { intros tag s Htag Hs. split; [|apply strip_spec].
    simpl. rewrite Htag. by destruct s. }
  split.
  2:{ eexists. split; [exists 4%nat; vm_compute; reflexivity|].
      by vm_compute. }
  destruct (crawl_pages w start_url max_pages)
    as (res & st & Hret & _ & Hd & HA & HB).
  exists res, st. split; [exact Hret|]. split.
  - intros t1 x t2 response soup Hsplit Hsg Hst Hct Hsoup.
    destruct (HA _ _ _ _ _ Hsplit Hsg (conj Hst Hct) Hsoup) as [t3 ->].
    split; [by exists t3|]. intros d ->%Hd.
    apply items_elem. rewrite Hsplit.
    exists (t1 ++ [Get x; Parse (text response)]), t3.
    by rewrite <- app_assoc.
  - intros d ->%Hd x t (t1 & t2 & Hsplit)%items_elem.
    destruct (HB _ _ _ _ Hsplit) as (t0 & response & soup & -> & Hsg & _ & Hsoup & ->).
    exists t0, t2, response, soup. split_and!; try done.
    by rewrite Hsplit, <- app_assoc.
Qed.

(** The title [" A "] of the first page of the four-page site is recorded
    as ["A"]. *)
Lemma recorded_title_witness :
  title_text_of (Some {| tag_string := Some (u " A ") |}) = strip (u " A ") /\
  strip (u " A ") = u "A".
Proof.
  split; [|reflexivity].
  apply (proj1 (proj2 (proj2 (recorded_title BfsExample.site
                                (u "https://site.test/") 4)))
           {| tag_string := Some (u " A ") |} (u " A ")).
  - reflexivity.
  - discriminate.
Defined.

(** ** Breadth-first order *)

Lemma nondecreasing_app l1 l2 :
  nondecreasing l1 -> nondecreasing l2 ->
  (forall a b, a ∈ l1 -> b ∈ l2 -> (a <= b)%nat) ->
  nondecreasing (l1 ++ l2).
Proof.
  intros H1 H2 H12 i j a b Hij Hi Hj.
  apply lookup_app_Some in Hi as [Hi|[Hli Hi]];
    apply lookup_app_Some in Hj as [Hj|[Hlj Hj]].
  - by apply (H1 i j).
  - apply H12; by eapply list_elem_of_lookup_2.
  - apply lookup_lt_Some in Hj. lia.
  - apply (H2 (i - length l1)%nat (j - length l1)%nat); [lia|done..].
Qed.

Lemma nondecreasing_tail a l : nondecreasing (a :: l) -> nondecreasing l.
Proof. intros H i j x y Hij Hi Hj. apply (H (S i) (S j)); [lia|done..]. Qed.

Lemma nondecreasing_const {A} (d : nat) (vs : list A) :
  nondecreasing ((fun _ => d) <$> vs).
Proof.
  intros i j a b _ Hi Hj. rewrite list_lookup_fmap in Hi, Hj.
  destruct (vs !! i), (vs !! j); simplify_eq/=. done.
Qed.

Lemma assoc_app_l {A} x (l l' : list (str * A)) :
  x ∈ l.*1 -> assoc x (l ++ l') = assoc x l.
Proof.
  induction l as [|[k a] l IH]; intros Hx; [by apply elem_of_nil in Hx|].
  simpl. destruct (decide (k = x)); [done|]. apply IH.
  apply elem_of_cons in Hx as [?|?]; [by subst|done].
Qed.

Lemma assoc_app_r {A} x (l l' : list (str * A)) :
  x ∉ l.*1 -> assoc x (l ++ l') = assoc x l'.
Proof.
  induction l as [|[k a] l IH]; intros Hx; [done|].
  csimpl in *. apply not_elem_of_cons in Hx as [Hne Hx].
  destruct (decide (k = x)); [congruence|]. by apply IH.
Qed.

Lemma assoc_const {A} x (a : A) (vs : list str) :
  x ∈ vs -> assoc x ((fun v => (v, a)) <$> vs) = Some a.
Proof.
  induction vs as [|v vs IH]; intros Hx; [by apply elem_of_nil in Hx|].
  csimpl. destruct (decide (v = x)); [done|]. apply IH.
  apply elem_of_cons in Hx as [?|?]; [by subst|done].
Qed.

Lemma assoc_elem {A} x (l : list (str * A)) :
  x ∈ l.*1 -> exists a, assoc x l = Some a /\ a ∈ l.*2.
Proof.
  induction l as [|[k a] l IH]; intros Hx; [by apply elem_of_nil in Hx|].
  csimpl in *. destruct (decide (k = x)) as [->|Hne].
  - exists a. split; [done|left].
  - apply elem_of_cons in Hx as [?|Hx]; [by subst|].
    destruct (IH Hx) as (b & ? & ?). exists b. split; [done|by right].
Qed.

Lemma depth_scan_app seed t es :
  depth_scan seed (t ++ es) = foldl depth_step (depth_scan seed t) es.
Proof. apply foldl_app. Qed.

Lemma depth_fold_no_pops es : forall cur dm,
  pops es = [] ->
  foldl depth_step (cur, dm) es =
  (cur, dm ++ ((fun v => (v, S cur)) <$> appends es)).
Proof.
  induction es as [|e es IH]; intros cur dm Hp.
  - simpl. by rewrite app_nil_r.
  - destruct e; simpl in Hp |- *; try discriminate; try by apply IH.
    rewrite IH by done. simpl. by rewrite <- app_assoc.
Qed.

Lemma depth_inv_initial w start_url max_pages pr :
  depth_inv (rstrip_slash start_url) (initial_state w start_url max_pages pr).
Proof.
  destruct (initial_state_events w start_url max_pages pr) as (Hp & _ & _ & Ha & _).
  unfold depth_inv, depth_scan.
  rewrite depth_fold_no_pops by done. cbv zeta in Ha. rewrite Ha. simpl.
  split_and!.
  - done.
  - intros [|i] [|j] a b Hij Hi Hj; simplify_eq; done.
  - intros d ->%list_elem_of_singleton. lia.
  - unfold depth_of. simpl. rewrite decide_True by done. simpl.
    intros [|[|i]] [|[|j]] a b Hij Hi Hj; simplify_eq/=; lia.
Qed.

Lemma depth_inv_step w base_domain robot_parser max_pages seed st x q es :
  frontier_inv seed st -> depth_inv seed st ->
  urls_to_visit st = x :: q ->
  iteration w base_domain robot_parser max_pages st x es ->
  depth_inv seed (run_events es st).
Proof.
  intros Hinv Hd Hq Hit.
  destruct (iteration_summary _ _ _ _ _ _ _ _ Hq Hit)
    as (es' & k & Hes & Hp & _ & _ & _ & Hqueue & Hndv & Hfresh & _).
  destruct Hinv as (Hfifo & Hnd & Hseen & _).
  unfold depth_inv in *. rewrite trace_run_events, depth_scan_app.
  destruct (depth_scan seed (trace st)) as [cur dm].
  destruct Hd as (Hkeys & Hsorted & Hbound & Hfront).
  rewrite Hq in Hfront, Hfifo. subst es.
  change (appends (Popleft x :: es')) with (appends es') in *.
  set (vs := appends es') in *.
  cbn [foldl depth_step snd]. rewrite depth_fold_no_pops by done.
  rewrite Hqueue. fold vs.
  set (cx := depth_of dm x) in *.
  assert (Hcx : (cur <= cx)%nat).
  { apply (Hfront 0%nat 1%nat); [lia|done..]. }
  assert (Hqin : forall y, y ∈ q -> y ∈ dm.*1).
  { intros y Hy. rewrite Hkeys, <- Hfifo. apply elem_of_app. right. by right. }
  assert (Hvs : forall v, v ∈ vs -> v ∉ dm.*1).
  { intros v Hv. rewrite Hkeys. rewrite <- Hseen. by apply Hfresh. }
  assert (Hqd : forall y, y ∈ q -> (depth_of dm y <= S cx)%nat).
  { intros y Hy. unfold depth_of.
    destruct (assoc_elem y dm (Hqin y Hy)) as (d & -> & Hd). simpl.
    apply Hbound in Hd. lia. }
  split_and!.
  - rewrite fmap_app, Hkeys, appends_app. rewrite <- list_fmap_compose.
    simpl. f_equal. f_equal. by rewrite list_fmap_id.
  - rewrite fmap_app. apply nondecreasing_app; [done| |].
    + rewrite <- list_fmap_compose. apply nondecreasing_const.
    + intros a b Ha' Hb. apply Hbound in Ha'.
      rewrite <- list_fmap_compose in Hb.
      apply list_elem_of_fmap in Hb as (v & -> & _). simpl. lia.
  - intros d. rewrite fmap_app, elem_of_app. intros [Hd|Hd].
    + apply Hbound in Hd. lia.
    + rewrite <- list_fmap_compose in Hd.
      apply list_elem_of_fmap in Hd as (v & -> & _). simpl. lia.
  - rewrite fmap_app.
    replace (depth_of (dm ++ ((fun v => (v, S cx)) <$> vs)) <$> q)
      with (depth_of dm <$> q).
    2:{ apply Forall_fmap_ext, Forall_forall. intros y Hy.
        unfold depth_of. by rewrite assoc_app_l by by apply Hqin. }
    replace (depth_of (dm ++ ((fun v => (v, S cx)) <$> vs)) <$> vs)
      with ((fun _ : str => S cx) <$> vs).
    2:{ apply Forall_fmap_ext, Forall_forall. intros v Hv.
        unfold depth_of. rewrite assoc_app_r by by apply Hvs.
        by rewrite assoc_const. }
    rewrite app_comm_cons. apply nondecreasing_app.
    + by apply nondecreasing_tail in Hfront.
    + apply nondecreasing_const.
    + intros a b [->|Ha']%elem_of_cons Hb;
        apply list_elem_of_fmap in Hb as (v & -> & _); [lia|].
      apply list_elem_of_fmap in Ha' as (y & -> & Hy). by apply Hqd.
Qed.

Lemma crawl_loop_step w base_domain robot_parser max_pages fuel st r st' :
  while_cond max_pages st = true ->
  loop_body w base_domain robot_parser max_pages st = (r, st') ->
  (forall e, r <> Raise e) ->
  crawl_loop w base_domain robot_parser max_pages (S fuel) st =
  crawl_loop w base_domain robot_parser max_pages fuel st'.
Proof.
  intros Hc Hbody Hr. simpl. rewrite Hc, Hbody.
  destruct r; [done|done|by destruct (Hr e)].
Qed.

Ltac crawl_step :=
  erewrite crawl_loop_step;
  [ | apply Z.ltb_lt; simpl; lia | vm_compute; reflexivity | done ].

(** On the site where A links to B and C, and B links to D, a run with a
    budget of at least 4 visits the pages in the order A, B, C, D. *)
Lemma bfs_example max_pages :
  4 <= max_pages ->
  exists st,
    returns BfsExample.site (u "https://site.test/") max_pages
      (Normal [(BfsExample.A, u "A"); (BfsExample.B, u "B");
               (BfsExample.C, u "C"); (BfsExample.D, u "D")]) st /\
    pops (trace st) =
      [BfsExample.A; BfsExample.B; BfsExample.C; BfsExample.D] /\
    fetches (trace st) =
      [BfsExample.A; BfsExample.B; BfsExample.C; BfsExample.D] /\
    discovery BfsExample.A (trace st) =
      [(BfsExample.A, 0%nat); (BfsExample.B, 1%nat); (BfsExample.C, 1%nat);
       (BfsExample.D, 2%nat)].
Proof.
  intros Hmax. eexists. split.
  - exists 5%nat. unfold crawl_same_domain.
    change (urlparse BfsExample.site (u "https://site.test/"))
      with (SyntheticSite.parse_url (u "https://site.test/")).
    replace (SyntheticSite.parse_url (u "https://site.test/"))
      with (@inr exn _ {| scheme := u "https"; netloc := u "site.test" |})
      by (by vm_compute).
    cbn [scheme netloc].
    replace (initial_state _ _ _ _) with
      {| urls_to_visit := [BfsExample.A]; seen_urls := {[BfsExample.A]};
         scraped_pages := [];
         trace := [RobotsRead (u "https://site.test/robots.txt");
                   Print (MsgRobotsLoaded (u "https://site.test/robots.txt"));
                   Print MsgCrawlStart; Print (MsgTargetDomain (u "site.test"));
                   Print (MsgMaxPages max_pages)] |}
      by (by vm_compute).
    do 4 crawl_step.
    vm_compute. reflexivity.
  - by vm_compute.
Qed.

(** When the depths do not decrease along the discovery order and the
    visits follow that order, a URL of smaller depth is visited before any
    visited URL of greater depth. *)
Lemma visited_in_depth_order (disc : list (str * nat)) (visited : list str) :
  NoDup disc.*1 -> nondecreasing disc.*2 -> visited `prefix_of` disc.*1 ->
  forall x y dx dy,
    (x, dx) ∈ disc -> (y, dy) ∈ disc -> (dx < dy)%nat -> y ∈ visited ->
    exists i j, visited !! i = Some x /\ visited !! j = Some y /\ (i < j)%nat.
Proof.
  intros Hnd Hsorted Hpre x y dx dy Hx Hy Hlt Hvis.
  apply list_elem_of_lookup in Hx as [i Hi], Hy as [j Hj], Hvis as [j' Hj'].
  assert (Hij : (i < j)%nat).
  { destruct (decide (i < j)%nat) as [|Hge]; [done|]. exfalso.
    assert ((dy <= dx)%nat); [|lia].
    apply (Hsorted j i); [lia| |]; rewrite list_lookup_fmap; by simplify_option_eq. }
  assert (j' = j) as ->.
  { apply (NoDup_lookup disc.*1 j' j y); [done| |].
    - by eapply prefix_lookup_Some.
    - rewrite list_lookup_fmap. by rewrite Hj. }
  exists i, j. split_and!; [|done..].
  assert (is_Some (visited !! i)) as [x' Hx'].
  { apply lookup_lt_is_Some. apply lookup_lt_Some in Hj'. lia. }
  rewrite Hx'. f_equal.
  pose proof (prefix_lookup_Some _ _ _ _ Hx' Hpre) as Hd.
  rewrite list_lookup_fmap, Hi in Hd. by simplify_eq/=.
Qed.

(** C6. The frontier is a FIFO queue: in every run, however it ends, the
    URLs are popped in the order in which they were discovered (the seed,
    then the URLs appended). Along that order the link depth does not
    decrease, so that a URL discovered at a smaller depth is visited before
    every visited URL of a greater depth; and the keys of the returned
    dictionary follow the order of the visits. On the site where A links to
    B and C, and B links to D, a run with a budget of 4 or more visits A, B,
    C, D in this order. *)
Theorem breadth_first_order (w : World) (start_url : str) (max_pages : Z) :
  (exists res st,
     returns w start_url max_pages res st /\
     (let disc := discovery (rstrip_slash start_url) (trace st) in
      disc.*1 = rstrip_slash start_url :: appends (trace st) /\
      pops (trace st) `prefix_of` disc.*1 /\
      nondecreasing disc.*2 /\
      forall x y dx dy,
        (x, dx) ∈ disc -> (y, dy) ∈ disc -> (dx < dy)%nat ->
        y ∈ pops (trace st) ->
        exists i j, pops (trace st) !! i = Some x /\
                    pops (trace st) !! j = Some y /\ (i < j)%nat) /\
     forall d, res = Normal d -> d.*1 `sublist_of` pops (trace st)) /\
  (forall budget, 4 <= budget ->
     exists st,
       returns BfsExample.site (u "https://site.test/") budget
         (Normal [(BfsExample.A, u "A"); (BfsExample.B, u "B");
                  (BfsExample.C, u "C"); (BfsExample.D, u "D")]) st /\
       pops (trace st) =
         [BfsExample.A; BfsExample.B; BfsExample.C; BfsExample.D] /\
       fetches (trace st) =
         [BfsExample.A; BfsExample.B; BfsExample.C; BfsExample.D] /\
       discovery BfsExample.A (trace st) =
         [(BfsExample.A, 0%nat); (BfsExample.B, 1%nat); (BfsExample.C, 1%nat);
          (BfsExample.D, 2%nat)]).
Proof.
  split; [|apply bfs_example].
  destruct (urlparse w start_url) as [e|pr] eqn:Hpr.
  { exists (Raise e), empty_state. split; [by apply crawl_raises|].
    split; [|done]. simpl. split_and!; [done|apply prefix_nil| |].
    - intros [|i] [|j] a b Hij Hi Hj; simplify_eq/=; done.
    - intros x y dx dy _ _ _ Hy. by apply elem_of_nil in Hy. }
  destruct (crawl_returns w (depth_inv (rstrip_slash start_url))
              start_url max_pages pr Hpr)
    as (st & Hd & Hinv & Hend).
  { apply depth_inv_initial. }
  { intros st x q es Hinv Hd Hq _ Hit. by eapply depth_inv_step. }
  assert (exists res st',
    returns w start_url max_pages res st' /\
    pops (trace st') = pops (trace st) /\
    appends (trace st') = appends (trace st) /\
    discovery (rstrip_slash start_url) (trace st') =
      discovery (rstrip_slash start_url) (trace st) /\
    forall d, res = Normal d -> d = scraped_pages st)
    as (res & st' & Hret & Hp & Ha & Hdisc & Hres).
  { destruct Hend as [[Hret _]|(e & Hret & _)]; eexists _, _;
      (split; [exact Hret|]); [|done].
    destruct (emit_print_events MsgCrawlDone st) as (Hp & _ & _ & Ha & _).
    split_and!; [done|done| |by intros d [= <-]].
    unfold discovery. simpl. by rewrite depth_scan_app. }
  exists res, st'. split; [exact Hret|].
  cbv zeta. rewrite Hp, Ha, Hdisc. unfold discovery, depth_inv in *.
  destruct (depth_scan (rstrip_slash start_url) (trace st)) as [cur dm].
  destruct Hd as (Hkeys & Hsorted & _ & _).
  destruct Hinv as (Hfifo & Hnd & _ & Hfp & Hrf & Hdict).
  assert (Hpre : pops (trace st) `prefix_of` dm.*1).
  { rewrite Hkeys, <- Hfifo. by apply prefix_app_r. }
  simpl. split.
  - split_and!; try done.
    apply visited_in_depth_order; [by rewrite Hkeys|done|done].
  - intros d ->%Hres. rewrite Hdict. by etrans.
Qed.

(** ** A run on a small site *)

(** The home page has the title [Home] and links to [/about] (twice), to a
    mail address and to another site: the dictionary holds the home page
    with its title, and the only URL that entered the frontier is
    [https://example.test/about], which answers 404. *)
Example scenario :
  exists st,
    returns ScenarioExample.site (u "https://example.test/") 10
      (Normal [(ScenarioExample.home, u "Home")]) st /\
    appends (trace st) = [ScenarioExample.about] /\
    fetches (trace st) = [ScenarioExample.home; ScenarioExample.about] /\
    urls_to_visit st = [].
Proof.
  eexists. split; [exists 3%nat; vm_compute; reflexivity|].
  split_and!; vm_compute; reflexivity.
Qed.

(** * Further properties of the crawl *)

Lemma skips_app es1 es2 : skips (es1 ++ es2) = skips es1 ++ skips es2.
Proof. apply omap_app. Qed.
Lemma skips_Append vs : skips (Append <$> vs) = [].
Proof. by induction vs. Qed.

(** ** The gates before the GET *)

Lemma iteration_fetch_admitted w base_domain robot_parser max_pages st x es :
  iteration w base_domain robot_parser max_pages st x es ->
  fetches es = [] \/ (fetches es = [x] /\ admitted w robot_parser x).
Proof.
  intros Hit. iteration_cases Hit; try (by left); right; split; try done.
  - by apply (recorded_events max_pages st x (text r) _ vs [Sleep]).
  - by apply (recorded_events max_pages st x (text r) _ vs
                [Print (error_message e); Sleep]).
Qed.

(** X1. Every URL for which a GET is issued has passed the extension
    filter and the robots check of the parser set up at the start: a URL
    that is excluded or that robots.txt denies is never fetched, however
    the call ends. *)
Theorem fetches_are_gated (w : World) (start_url : str) (max_pages : Z) :
  exists res st,
    returns w start_url max_pages res st /\
    forall parsed_uri,
      urlparse w start_url = inr parsed_uri ->
      forall x, x ∈ fetches (trace st) ->
        is_excluded x = false /\
        RobotFileParser.can_fetch w
          (robots_setup w (scheme parsed_uri) (netloc parsed_uri)).1
          USER_AGENT x = inr true.
Proof.
  destruct (urlparse w start_url) as [e|pr] eqn:Hpr.
  { exists (Raise e), empty_state. split; [by apply crawl_raises|done]. }
  set (rp := (robots_setup w (scheme pr) (netloc pr)).1).
  destruct (crawl_returns w (fun st => Forall (admitted w rp) (fetches (trace st)))
              start_url max_pages pr Hpr) as (st & Hall & _ & Hend).
  { destruct (initial_state_events w start_url max_pages pr) as (_ & -> & _).
    constructor. }
  { intros st x q es Hinv Hall Hq Hlt Hit.
    rewrite trace_run_events, fetches_app. apply Forall_app. split; [done|].
    destruct (iteration_fetch_admitted _ _ _ _ _ _ _ Hit) as [-> | [-> Hadm]];
      [by apply Forall_nil|by apply Forall_singleton]. }
  assert (exists res st',
    returns w start_url max_pages res st' /\
    fetches (trace st') = fetches (trace st)) as (res & st' & Hret & Hf).
  { destruct Hend as [[Hret _]|(e & Hret & _)]; eexists _, _;
      (split; [exact Hret|]); [|done].
    by destruct (emit_print_events MsgCrawlDone st) as (_ & Hf & _). }
  exists res, st'. split; [exact Hret|]. intros pr' [= <-].
  rewrite Hf. intros x Hx.
  by apply (proj1 (Forall_forall _ _) Hall).
Qed.

(** ** What is recorded *)

Lemma records_items tr : records tr = (items tr).*1.
Proof.
  induction tr as [|e tr IH]; [done|]. destruct e; simpl; try done.
  csimpl. by rewrite IH.
Qed.

(** X2. In every run, however it ends, a URL that was fetched gets an
    entry exactly when its GET was answered, on the history of the run up
    to it, with status 200 and a [Content-Type] header that holds
    [text/html] (in any case), and the decoded body was accepted by the
    parser: a page with another status, another or no content type, or a
    body the parser rejects gets no entry. Every URL that gets an entry was
    fetched, and the keys of the returned dictionary are the URLs that got
    an entry. *)
Theorem records_are_pages (w : World) (start_url : str) (max_pages : Z) :
  exists res st,
    returns w start_url max_pages res st /\
    (forall x, x ∈ records (trace st) ->
       exists t1 t2, trace st = t1 ++ Get x :: t2) /\
    (forall t1 x t2,
       trace st = t1 ++ Get x :: t2 ->
       (x ∈ records (trace st) <->
        exists response soup,
          session_get w t1 USER_AGENT x = inr response /\
          status_code response = 200 /\
          contains TEXT_HTML
            (lower (default [] (content_type_header response))) = true /\
          BeautifulSoup w (text response) = inr soup)) /\
    forall d, res = Normal d -> d.*1 = records (trace st).
Proof.
  destruct (crawl_pages w start_url max_pages)
    as (res & st & Hret & Hnd & Hd & HA & HB).
  exists res, st. split; [exact Hret|].
  assert (Hkey : forall x, x ∈ records (trace st) ->
    exists t0 t2 response soup,
      trace st = t0 ++ Get x :: t2 /\
      session_get w t0 USER_AGENT x = inr response /\ is_page response /\
      BeautifulSoup w (text response) = inr soup).
  { intros x. rewrite records_items.
    intros ([y t] & -> & Hin)%list_elem_of_fmap.
    apply items_elem in Hin as (t1 & t2 & Hsplit).
    destruct (HB _ _ _ _ Hsplit) as (t0 & response & soup & -> & Hsg & Hpage & Hsoup & _).
    exists t0, (Parse (text response) :: SetItem y t :: t2), response, soup.
    split_and!; try done. by rewrite Hsplit, <- app_assoc. }
  split_and!.
  - intros x (t0 & t2 & _ & _ & Hsplit & _)%Hkey. by exists t0, t2.
  - intros t1 x t2 Hsplit. split.
    + intros (t0 & t2' & response & soup & Hsplit' & Hsg & [Hst Hct] & Hsoup)%Hkey.
      assert (t1 = t0) as -> by (by eapply get_split_unique).
      by exists response, soup.
    + intros (response & soup & Hsg & Hst & Hct & Hsoup).
      destruct (HA _ _ _ _ _ Hsplit Hsg (conj Hst Hct) Hsoup) as [t3 ->].
      rewrite records_items. apply list_elem_of_fmap.
      exists (x, title_text_of (find_title soup)). split; [done|].
      apply items_elem.
      exists (t1 ++ [Get x; Parse (text response)]), t3.
      by rewrite Hsplit, <- app_assoc.
  - intros d ->%Hd. by rewrite records_items.
Qed.

(** X3. The dictionary is written once per key: the returned dictionary is
    the list of the assignments [scraped_pages[url] = title] that were
    made, in the order they were made, so that no assignment replaced an
    earlier entry and the entries are in the order of the visits. *)
Theorem dictionary_is_written_once (w : World) (start_url : str) (max_pages : Z) :
  exists res st,
    returns w start_url max_pages res st /\
    forall d, res = Normal d -> d = items (trace st).
Proof.
  destruct (urlparse w start_url) as [e|pr] eqn:Hpr.
  { exists (Raise e), empty_state. split; [by apply crawl_raises|done]. }
  destruct (crawl_returns w (fun st => scraped_pages st = items (trace st))
              start_url max_pages pr Hpr) as (st & HI & _ & Hend).
  { simpl. rewrite items_app. unfold robots_setup.
    by destruct (RobotFileParser.read _ _) as [[?|] ?]. }
  { intros st x q es Hinv HI Hq Hlt Hit.
    destruct (frontier_head_fresh _ _ _ _ Hinv Hq) as (_ & _ & Hxr).
    destruct Hinv as (_ & _ & _ & _ & _ & Hkeys).
    rewrite trace_run_events, items_app, <- HI.
    destruct (iteration_items _ _ _ _ _ _ _ Hit) as [[-> ->]|(t & -> & ->)].
    - by rewrite app_nil_r.
    - apply dict_set_fresh. by rewrite Hkeys. }
  destruct Hend as [[Hret Hstop]|(e0 & Hret & _)].
  2:{ eexists _, _. split; [exact Hret|done]. }
  eexists _, _. split; [exact Hret|]. intros d [= <-].
  simpl. rewrite items_app. simpl. by rewrite app_nil_r.
Qed.

(** ** The frontier at the end *)

(** X4. No URL is popped twice. However the call ends, the seen-set is then
    the disjoint union of the URLs popped and the URLs still in the
    frontier, and the frontier holds no URL twice. When the call returns
    with fewer than [max_pages] entries, the frontier is empty and every
    URL that was ever enqueued has been popped, in the order of its
    discovery. *)
Theorem frontier_accounting (w : World) (start_url : str) (max_pages : Z) :
  exists res st,
    returns w start_url max_pages res st /\
    NoDup (pops (trace st)) /\
    (forall x, x ∈ seen_urls st <->
               x ∈ pops (trace st) \/ x ∈ urls_to_visit st) /\
    (forall x, x ∈ pops (trace st) -> x ∉ urls_to_visit st) /\
    NoDup (urls_to_visit st) /\
    forall d, res = Normal d ->
      Z.of_nat (length d) < max_pages ->
      urls_to_visit st = [] /\
      pops (trace st) = rstrip_slash start_url :: appends (trace st).
Proof.
  destruct (urlparse w start_url) as [e|pr] eqn:Hpr.
  { exists (Raise e), empty_state. split; [by apply crawl_raises|].
    split_and!; [constructor| |by intros x ?%elem_of_nil|constructor|done].
    intros x. simpl. set_solver. }
  destruct (crawl_returns w (fun _ => True) start_url max_pages pr Hpr I)
    as (st & _ & Hinv & Hend); [done|].
  destruct Hinv as (Hfifo & Hnd & Hseen & _).
  destruct (emit_print_events MsgCrawlDone st) as (Hp & _ & _ & Ha & _).
  rewrite <- Hfifo in Hnd. apply NoDup_app in Hnd as (Hndp & Hdis & Hndq).
  assert (Hunion : forall x, x ∈ seen_urls st <->
                             x ∈ pops (trace st) \/ x ∈ urls_to_visit st).
  { intros x. by rewrite Hseen, <- Hfifo, elem_of_app. }
  destruct Hend as [[Hret Hstop]|(e0 & Hret & _)].
  2:{ eexists _, _. split; [exact Hret|]. by split_and!. }
  eexists _, _. split; [exact Hret|]. cbv zeta in *. rewrite Hp, Ha.
  change (urls_to_visit (emit (Print MsgCrawlDone) st)) with (urls_to_visit st).
  change (seen_urls (emit (Print MsgCrawlDone) st)) with (seen_urls st).
  split_and!; try done. intros d [= <-] Hlt.
  destruct Hstop as [Hq|Hge]; [|lia].
  split; [done|]. by rewrite <- Hfifo, Hq, app_nil_r.
Qed.

(** ** The budget as an integer *)

(** X5. For every integer budget the dictionary has at most
    [max(0, max_pages)] entries, and exactly that many when the call
    returns with URLs left in the frontier: the crawl leaves discovered URLs
    unvisited only when the budget is used up. A budget of zero or below
    pops nothing. *)
Theorem budget_is_exact (w : World) (start_url : str) (max_pages : Z) :
  exists res st,
    returns w start_url max_pages res st /\
    (max_pages <= 0 -> pops (trace st) = []) /\
    forall d, res = Normal d ->
      Z.of_nat (length d) <= Z.max 0 max_pages /\
      (urls_to_visit st <> [] -> Z.of_nat (length d) = Z.max 0 max_pages) /\
      (max_pages <= 0 -> d = []).
Proof.
  destruct (urlparse w start_url) as [e|pr] eqn:Hpr.
  { exists (Raise e), empty_state. split; [by apply crawl_raises|done]. }
  set (I := fun st : State =>
    Z.of_nat (length (scraped_pages st)) <= Z.max 0 max_pages /\
    (pops (trace st) <> [] -> 0 < max_pages)).
  destruct (crawl_returns w I start_url max_pages pr Hpr)
    as (st & [Hlen Hpos] & Hinv & Hend).
  { split; [simpl; lia|].
    by destruct (initial_state_events w start_url max_pages pr) as (-> & _). }
  { intros st x q es Hinv [Hlen Hpos] Hq Hlt Hit. split; [|lia].
    destruct (step_measure _ _ _ _ _ _ _ _ _ Hinv Hq Hit) as [[-> _]| ->]; lia. }
  assert (Hnone : max_pages <= 0 -> pops (trace st) = []).
  { intros Hmax. destruct (pops (trace st)) as [|y ys]; [done|].
    assert (0 < max_pages) by (by apply Hpos). lia. }
  destruct Hend as [[Hret Hstop]|(e0 & Hret & _)].
  2:{ eexists _, _. split; [exact Hret|]. by split. }
  destruct (emit_print_events MsgCrawlDone st) as (Hp & _).
  eexists _, _. split; [exact Hret|]. cbv zeta in Hp. rewrite Hp.
  change (urls_to_visit (emit (Print MsgCrawlDone) st)) with (urls_to_visit st).
  split; [done|].
  intros d [= <-]. split_and!; [done| |].
  - intros Hq. destruct Hstop as [?|Hge]; [done|]. lia.
  - intros Hmax. destruct (scraped_pages st); [done|simpl in Hlen; lia].
Qed.

(** ** Where links come from *)

Lemma link_edges_app_pop t x es : forall cur,
  link_edges cur (t ++ Popleft x :: es) =
  link_edges cur t ++ link_edges (Some x) es.
Proof.
  induction t as [|e t IH]; intros cur; [done|].
  destruct e; simpl; try done. by rewrite IH, app_assoc.
Qed.

Lemma link_edges_no_pops x es :
  pops es = [] ->
  link_edges (Some x) es = (fun v => (x, v)) <$> appends es.
Proof.
  induction es as [|e es IH]; intros Hp; [done|].
  destruct e; simpl in Hp |- *; try discriminate; try by apply IH.
  csimpl. by rewrite IH.
Qed.

Lemma link_edges_no_events es : forall cur,
  pops es = [] -> appends es = [] -> link_edges cur es = [].
Proof.
  induction es as [|e es IH]; intros cur Hp Ha; [done|].
  destruct e; simpl in Hp, Ha |- *; try discriminate; by apply IH.
Qed.

Lemma link_edges_app_print t m : forall cur,
  link_edges cur (t ++ [Print m]) = link_edges cur t.
Proof.
  induction t as [|e t IH]; intros cur; [done|].
  destruct e; simpl; by rewrite ?IH.
Qed.

(** X6. Links are taken only from pages that were recorded: every URL
    appended to the frontier was found while a URL was being processed
    for which an entry had been assigned, and the keys of the returned
    dictionary are the URLs for which an entry was assigned. A page that
    was skipped or whose GET or parsing failed contributes no link. *)
Theorem links_come_from_recorded_pages (w : World) (start_url : str)
    (max_pages : Z) :
  exists res st,
    returns w start_url max_pages res st /\
    (link_edges None (trace st)).*2 = appends (trace st) /\
    (forall p v, (p, v) ∈ link_edges None (trace st) ->
                 p ∈ records (trace st)) /\
    forall d, res = Normal d -> d.*1 = records (trace st).
Proof.
  destruct (urlparse w start_url) as [e|pr] eqn:Hpr.
  { exists (Raise e), empty_state. split; [by apply crawl_raises|].
    split_and!; [done| |done]. by intros p v ?%elem_of_nil. }
  set (I := fun st : State =>
    (link_edges None (trace st)).*2 = appends (trace st) /\
    forall p v, (p, v) ∈ link_edges None (trace st) -> p ∈ records (trace st)).
  destruct (crawl_returns w I start_url max_pages pr Hpr)
    as (st & [Hch Hsrc] & Hinv & Hend).
  { destruct (initial_state_events w start_url max_pages pr) as (Hp & _ & _ & Ha & _).
    unfold I. rewrite (link_edges_no_events _ None Hp Ha). cbv zeta in Ha.
    rewrite Ha. split; [done|]. intros p v Hin. by apply elem_of_nil in Hin. }
  { intros st x q es Hinv [Hch Hsrc] Hq Hlt Hit.
    destruct (iteration_summary _ _ _ _ _ _ _ _ Hq Hit)
      as (es' & k & -> & Hp & _ & Hr & _ & _ & _ & _ & Hk).
    unfold I. rewrite trace_run_events, link_edges_app_pop,
      link_edges_no_pops, appends_app, records_app, Hr by done.
    change (appends (Popleft x :: es')) with (appends es') in *.
    split.
    - rewrite fmap_app, Hch, <- list_fmap_compose. f_equal.
      by rewrite list_fmap_id.
    - intros p v [Hin|Hin]%elem_of_app; apply elem_of_app.
      + left. by eapply Hsrc.
      + right. apply list_elem_of_fmap in Hin as (v' & [= -> ->] & Hv').
        destruct Hk as [t ->]; [|left].
        intros Hnil. rewrite Hnil in Hv'. by apply elem_of_nil in Hv'. }
  destruct Hinv as (_ & _ & _ & _ & _ & Hkeys).
  destruct Hend as [[Hret Hstop]|(e0 & Hret & _)].
  2:{ eexists _, _. split; [exact Hret|]. by split_and!. }
  eexists _, _. split; [exact Hret|].
  assert (Hdone : link_edges None (trace (emit (Print MsgCrawlDone) st)) =
                  link_edges None (trace st)).
  { simpl. apply link_edges_app_print. }
  destruct (emit_print_events MsgCrawlDone st) as (_ & _ & Hr & Ha & _).
  cbv zeta in Ha, Hr. rewrite Hdone, Ha, Hr.
  split_and!; [done|done|]. by intros d [= <-].
Qed.

(** ** Delays and progress lines *)

Lemma iteration_counts w base_domain robot_parser max_pages st x es :
  iteration w base_domain robot_parser max_pages st x es ->
  length (fetches es) = (length (sleeps es) + length (skips es))%nat /\
  (length (records es) <= length (sleeps es))%nat.
Proof.
  intros Hit. iteration_cases Hit; unfold upto_get; cbn [app];
    try change (?a :: ?b :: ?c :: ?d :: ?e :: (Append <$> vs) ++ ?l)
      with ([a; b; c; d; e] ++ (Append <$> vs) ++ l);
    rewrite ?fetches_app, ?sleeps_app, ?skips_app, ?records_app,
      ?fetches_Append, ?sleeps_Append, ?skips_Append, ?records_Append;
    try destruct e; simpl; split; lia.
Qed.

(** X7. Every GET of a run is followed by exactly one [sleep], except the
    GETs after which a status or content-type skip line is printed: the
    number of GETs is the number of sleeps plus the number of those skip
    lines. URLs dropped by the extension filter or by robots.txt cost no
    sleep, and every recorded page costs one. *)
Theorem delays_are_accounted (w : World) (start_url : str) (max_pages : Z) :
  exists res st,
    returns w start_url max_pages res st /\
    length (fetches (trace st)) =
      (length (sleeps (trace st)) + length (skips (trace st)))%nat /\
    forall d, res = Normal d -> (length d <= length (sleeps (trace st)))%nat.
Proof.
  destruct (urlparse w start_url) as [e|pr] eqn:Hpr.
  { exists (Raise e), empty_state. split; [by apply crawl_raises|done]. }
  set (I := fun st : State =>
    length (fetches (trace st)) =
      (length (sleeps (trace st)) + length (skips (trace st)))%nat /\
    (length (records (trace st)) <= length (sleeps (trace st)))%nat).
  destruct (crawl_returns w I start_url max_pages pr Hpr)
    as (st & [Hf Hr] & Hinv & Hend).
  { unfold I. simpl. rewrite fetches_app, sleeps_app, skips_app, records_app.
    unfold robots_setup. by destruct (RobotFileParser.read _ _) as [[?|] ?]. }
  { intros st x q es Hinv [Hf Hr] Hq Hlt Hit. unfold I.
    rewrite trace_run_events, fetches_app, sleeps_app, skips_app, records_app.
    rewrite !length_app.
    destruct (iteration_counts _ _ _ _ _ _ _ Hit) as [Hf' Hr']. lia. }
  destruct Hinv as (_ & _ & _ & _ & _ & Hkeys).
  apply (f_equal length) in Hkeys. rewrite length_fmap in Hkeys.
  destruct Hend as [[Hret Hstop]|(e0 & Hret & _)].
  2:{ eexists _, _. split; [exact Hret|]. by split. }
  eexists _, _. split; [exact Hret|]. simpl.
  rewrite fetches_app, sleeps_app, skips_app. simpl. rewrite !app_nil_r.
  split; [done|]. intros d [= <-]. lia.
Qed.

Lemma with_record_count_app n es1 es2 :
  with_record_count n (es1 ++ es2) =
  with_record_count n es1 ++
  with_record_count (n + length (records es1)) es2.
Proof.
  revert n. induction es1 as [|e es1 IH]; intros n.
  - simpl. by rewrite Nat.add_0_r.
  - simpl. rewrite IH. f_equal. f_equal. destruct e; simpl; f_equal; lia.
Qed.

Lemma with_record_count_other P n es :
  (forall e k, not_progress_line e -> P (e, k)) ->
  Forall not_progress_line es ->
  Forall P (with_record_count n es).
Proof.
  intros HP Hall. revert n.
  induction Hall as [|e es He _ IH]; intros n; simpl; constructor; auto.
Qed.

Lemma iteration_progress w base_domain robot_parser max_pages st x es :
  iteration w base_domain robot_parser max_pages st x es ->
  Z.of_nat (length (scraped_pages st)) < max_pages ->
  Forall (progress_line_ok max_pages)
    (with_record_count (length (scraped_pages st)) es).
Proof.
  intros Hit Hlt.
  assert (Hother : forall n rest, Forall not_progress_line rest ->
    Forall (progress_line_ok max_pages) (with_record_count n rest)).
  { intros n rest. apply with_record_count_other.
    intros e k He. unfold progress_line_ok. simpl.
    by destruct e as [|[]| | | | | |]. }
  iteration_cases Hit; unfold upto_get; cbn [app with_record_count];
    repeat (apply Forall_cons; split;
            [unfold progress_line_ok; simpl;
             first [done | by destruct e | (split_and!; [done|done|lia])]|]);
    try (by apply Forall_nil).
  all: apply Hother; apply Forall_app; split;
    [apply Forall_fmap, Forall_true; done|].
  - by repeat constructor.
  - repeat constructor. by destruct e.
Qed.

Lemma progress_other max_pages n rest :
  Forall not_progress_line rest ->
  Forall (progress_line_ok max_pages) (with_record_count n rest).
Proof.
  apply with_record_count_other.
  intros e k He. unfold progress_line_ok. simpl.
  by destruct e as [|[]| | | | | |].
Qed.

(** X8. Every progress line [[k/m]: url] that is printed shows the budget
    as [m] and, as [k], one more than the number of pages recorded before
    it; [k] lies between 1 and the budget. *)
Theorem progress_lines_are_right (w : World) (start_url : str) (max_pages : Z) :
  exists res st,
    returns w start_url max_pages res st /\
    forall t1 k m x t2,
      trace st = t1 ++ Print (MsgProcessing k m x) :: t2 ->
      k = Z.of_nat (length (records t1)) + 1 /\ m = max_pages /\
      1 <= k <= max_pages.
Proof.
  destruct (urlparse w start_url) as [e|pr] eqn:Hpr.
  { exists (Raise e), empty_state. split; [by apply crawl_raises|].
    intros t1 k m x t2 Hsplit. by destruct t1. }
  set (I := fun st : State =>
    Forall (progress_line_ok max_pages) (with_record_count 0 (trace st))).
  destruct (crawl_returns w I start_url max_pages pr Hpr)
    as (st & HI & _ & Hend).
  { apply progress_other. simpl. unfold robots_setup.
    destruct (RobotFileParser.read _ _) as [[?|] ?]; by repeat constructor. }
  { intros st x q es Hinv HI Hq Hlt Hit. unfold I.
    rewrite trace_run_events, with_record_count_app. apply Forall_app.
    split; [done|]. simpl.
    destruct Hinv as (_ & _ & _ & _ & _ & Hkeys).
    apply (f_equal length) in Hkeys. rewrite length_fmap in Hkeys.
    rewrite <- Hkeys. by eapply iteration_progress. }
  assert (exists res st',
    returns w start_url max_pages res st' /\
    Forall (progress_line_ok max_pages) (with_record_count 0 (trace st')))
    as (res & st' & Hret & Hall).
  { destruct Hend as [[Hret _]|(e & Hret & _)]; eexists _, _;
      (split; [exact Hret|]); [|done].
    simpl. rewrite with_record_count_app. apply Forall_app. split; [done|].
    by repeat constructor. }
  exists res, st'. split; [exact Hret|].
  intros t1 k m x t2 Hsplit.
  rewrite Hsplit, with_record_count_app in Hall.
  apply Forall_app in Hall as [_ Hall]. simpl in Hall.
  apply Forall_cons in Hall as [(-> & -> & Hle) _]. simpl in *.
  split_and!; [done|done|lia|done].
Qed.

(** ** A seed that does not pass the gates *)

(** X9. When the normalized seed is dropped by the extension filter (as a
    seed whose host ends in [.zip] is) or denied by the robots check, the
    call returns the empty dictionary: no GET is issued and nothing is
    appended to the frontier; with a positive budget the seed is the only
    URL popped. *)
Theorem seed_not_admitted (w : World) (start_url : str) (max_pages : Z)
    (parsed_uri : ParseResult) :
  urlparse w start_url = inr parsed_uri ->
  is_excluded (rstrip_slash start_url) = true \/
  RobotFileParser.can_fetch w
    (robots_setup w (scheme parsed_uri) (netloc parsed_uri)).1
    USER_AGENT (rstrip_slash start_url) = inr false ->
  exists st,
    returns w start_url max_pages (Normal []) st /\
    fetches (trace st) = [] /\ appends (trace st) = [] /\
    (0 < max_pages -> pops (trace st) = [rstrip_slash start_url]).
Proof.
  intros Hpr Hgate.
  set (I := fun st : State =>
    scraped_pages st = [] /\ fetches (trace st) = [] /\ appends (trace st) = []).
  destruct (crawl_returns w I start_url max_pages parsed_uri Hpr)
    as (st & (Hd & Hf & Ha) & Hinv & Hend).
  { destruct (initial_state_events w start_url max_pages parsed_uri)
      as (_ & Hf & _ & Ha & _). by split_and!. }
  { intros st x q es Hinv (Hd & Hf & Ha) Hq Hlt Hit.
    assert (x = rstrip_slash start_url) as ->.
    { destruct Hinv as (Hfifo & _). rewrite Hq, Ha in Hfifo.
      destruct (pops (trace st)) as [|y [|z ys]]; by simplify_eq/=. }
    destruct (iteration_summary _ _ _ _ _ _ _ _ Hq Hit)
      as (es' & k & _ & _ & Hfk & _ & Hdk & _ & _ & _ & Hk).
    destruct (iteration_fetch_admitted _ _ _ _ _ _ _ Hit) as [Hnil|[_ [Hex Hrob]]].
    2:{ destruct Hgate; congruence. }
    unfold I. rewrite trace_run_events, fetches_app, appends_app, Hf, Ha, Hnil, Hdk.
    rewrite Hnil in Hfk. destruct k; try done.
    split_and!; [done|done|].
    destruct (appends es); [done|]. by destruct Hk as [t ?]. }
  destruct Hend as [[Hret Hstop]|(e & _ & t & x & Htr & Hex & Hrob)].
  2:{ exfalso. destruct Hinv as (Hfifo & _).
      rewrite Ha, Htr, pops_app in Hfifo. simpl in Hfifo.
      assert (x = rstrip_slash start_url) as ->.
      { destruct (pops t) as [|y ys]; simpl in Hfifo; [by simplify_eq|].
        injection Hfifo as _ Hfifo. by destruct ys. }
      destruct Hgate; congruence. }
  rewrite Hd in Hret.
  destruct (emit_print_events MsgCrawlDone st) as (Hp' & Hf' & _ & Ha' & _).
  eexists. split; [exact Hret|]. cbv zeta in *. rewrite Hp', Hf', Ha'.
  split_and!; [done|done|]. intros Hpos.
  destruct Hinv as (Hfifo & _). rewrite Ha in Hfifo.
  destruct Hstop as [Hq|Hge]; [|rewrite Hd in Hge; simpl in Hge; lia].
  by rewrite Hq, app_nil_r in Hfifo.
Qed.

(** A seed on a host that ends in [.zip]. *)
Lemma seed_not_admitted_witness :
  exists st,
    returns ScenarioExample.site (u "https://example.zip/") 5 (Normal []) st /\
    fetches (trace st) = [] /\ appends (trace st) = [] /\
    (0 < 5 -> pops (trace st) = [rstrip_slash (u "https://example.zip/")]).
Proof.
  apply (seed_not_admitted ScenarioExample.site (u "https://example.zip/") 5
           {| scheme := u "https"; netloc := u "example.zip" |}).
  - reflexivity.
  - left. reflexivity.
Defined.

(** ** The normal form of the URLs in the frontier *)

Lemma split_hash_0_no_hash s : 35%N ∉ split_hash_0 s.
Proof.
  induction s as [|c s IH]; simpl; [apply not_elem_of_nil|].
  destruct (c =? 35)%N eqn:Hc; [apply not_elem_of_nil|].
  apply N.eqb_neq in Hc. apply not_elem_of_cons. split; [congruence|done].
Qed.

Lemma split_hash_0_id s : 35%N ∉ s -> split_hash_0 s = s.
Proof.
  induction s as [|c s IH]; intros Hs; [done|].
  apply not_elem_of_cons in Hs as [Hc Hs]. simpl.
  destruct (c =? 35)%N eqn:Hc'; [apply N.eqb_eq in Hc'; congruence|].
  by rewrite IH.
Qed.

Lemma split_hash_0_app_hash s t :
  35%N ∈ s -> split_hash_0 (s ++ t) = split_hash_0 s.
Proof.
  induction s as [|c s IH]; intros Hs; [by apply elem_of_nil in Hs|].
  simpl. destruct (c =? 35)%N eqn:Hc; [done|]. f_equal. apply IH.
  apply elem_of_cons in Hs as [Heq|Hs]; [|done].
  subst c. by rewrite N.eqb_refl in Hc.
Qed.

Lemma split_hash_0_app_no_hash s t :
  35%N ∉ s -> split_hash_0 (s ++ t) = s ++ split_hash_0 t.
Proof.
  induction s as [|c s IH]; intros Hs; [done|].
  apply not_elem_of_cons in Hs as [Hc Hs]. simpl.
  destruct (c =? 35)%N eqn:Hc'; [apply N.eqb_eq in Hc'; congruence|].
  by rewrite IH.
Qed.

Lemma rstrip_slash_prefix s : rstrip_slash s `prefix_of` s.
Proof. destruct (rstrip_slash_spec s) as (post & Hs & _). by exists post. Qed.

Lemma rstrip_slash_no_slash s : endswith (rstrip_slash s) (u "/") = false.
Proof.
  apply not_true_is_false. intros [r Hr]%endswith_suffix.
  destruct (rstrip_by_spec (fun c => (c =? 47)%N) s) as (_ & _ & _ & Hlast).
  by specialize (Hlast 47%N r Hr).
Qed.

Lemma rstrip_slash_id s : endswith s (u "/") = false -> rstrip_slash s = s.
Proof.
  intros Hs. unfold rstrip_slash, rstrip_by.
  destruct (reverse s) as [|c r] eqn:Hr.
  - apply (f_equal reverse) in Hr. by rewrite reverse_involutive in Hr.
  - assert (s = reverse r ++ [c]) as ->.
    { apply (f_equal reverse) in Hr.
      by rewrite reverse_involutive, reverse_cons in Hr. }
    simpl. destruct (c =? 47)%N eqn:Hc; [|by rewrite reverse_cons].
    apply N.eqb_eq in Hc. subst c. exfalso.
    apply not_true_iff_false in Hs. apply Hs, endswith_suffix.
    by exists (reverse r).
Qed.

Lemma rstrip_slash_snoc s : rstrip_slash (s ++ u "/") = rstrip_slash s.
Proof.
  unfold rstrip_slash, rstrip_by. by rewrite reverse_app.
Qed.

Lemma normalize_link_normal joined :
  (35%N ∉ normalize_link joined) /\
  endswith (normalize_link joined) (u "/") = false.
Proof.
  split; [|apply rstrip_slash_no_slash].
  intros Hin. apply (split_hash_0_no_hash joined).
  eapply elem_of_prefix; [exact Hin|apply rstrip_slash_prefix].
Qed.

Lemma link_candidate_normal w base_domain x h v :
  link_candidate w base_domain x h = inr (Some v) ->
  existsb (startswith (strip h)) NON_NAVIGABLE = false /\
  exists joined, urljoin w x (strip h) = inr joined /\ v = normalize_link joined.
Proof.
  unfold link_candidate. destruct (existsb _ _); [done|].
  destruct (urljoin w x (strip h)) as [e|joined]; [done|].
  destruct (urlparse w (split_hash_0 joined)) as [e|p]; [done|].
  destruct (_ && _); [|done]. intros [= <-]. split; [done|]. by exists joined.
Qed.

(** The URLs an iteration appends come from the [href]s of the document
    parsed from the answer to its GET. *)
Lemma iteration_links w base_domain robot_parser max_pages st x es v :
  iteration w base_domain robot_parser max_pages st x es ->
  v ∈ appends es ->
  exists response soup h rest,
    es = upto_get max_pages st x ++ rest /\
    answer w max_pages st x = inr response /\ is_page response /\
    BeautifulSoup w (text response) = inr soup /\
    h ∈ find_all_a_href soup /\
    link_candidate w base_domain x h = inr (Some v).
Proof.
  intros Hit Hv.
  iteration_cases Hit; try (by apply elem_of_nil in Hv);
    try (destruct e; by apply elem_of_nil in Hv).
  - destruct (recorded_events max_pages st x (text r)
                (title_text_of (find_title soup)) vs [Sleep])
      as (_ & _ & _ & Ha' & _); try done.
    cbv zeta in Ha'. rewrite Ha' in Hv.
    destruct (fresh_links_spec _ _ _ _ _ _ _ Hfl) as [_ Hall].
    destruct (Hall _ Hv) as [_ (h & Hh & Hc)].
    by eexists r, soup, h, _.
  - destruct (recorded_events max_pages st x (text r)
                (title_text_of (find_title soup)) vs
                [Print (error_message e); Sleep])
      as (_ & _ & _ & Ha' & _); try done; try (by destruct e).
    cbv zeta in Ha'. rewrite Ha' in Hv.
    destruct (fresh_links_spec _ _ _ _ _ _ _ Hfl) as [_ Hall].
    destruct (Hall _ Hv) as [_ (h & Hh & Hc)].
    by eexists r, soup, h, _.
Qed.

(** X10. The URLs in the frontier are in normal form: the normalized seed
    does not end with a slash, and every URL appended comes from an [href]
    of the document parsed from the answer to the GET of the page being
    processed; that [href] is not a [tel:], [mailto:] or [javascript:]
    link, and the URL appended is the normal form of what [urljoin]
    returned for the page and the [href]; it holds no [#] and does not end
    with a slash. (The fragment of the seed is not removed.) *)
Theorem frontier_urls_are_normal (w : World) (start_url : str) (max_pages : Z) :
  endswith (rstrip_slash start_url) (u "/") = false /\
  exists res st,
    returns w start_url max_pages res st /\
    (link_edges None (trace st)).*2 = appends (trace st) /\
    forall current_url v, (current_url, v) ∈ link_edges None (trace st) ->
      (exists t1 t2 response soup a_href joined,
         trace st = t1 ++ Get current_url :: t2 /\
         session_get w t1 USER_AGENT current_url = inr response /\
         BeautifulSoup w (text response) = inr soup /\
         a_href ∈ find_all_a_href soup /\
         existsb (startswith (strip a_href)) NON_NAVIGABLE = false /\
         urljoin w current_url (strip a_href) = inr joined /\
         v = normalize_link joined) /\
      (35%N ∉ v) /\ endswith v (u "/") = false.
Proof.
  split; [apply rstrip_slash_no_slash|].
  destruct (urlparse w start_url) as [e|pr] eqn:Hpr.
  { exists (Raise e), empty_state. split; [by apply crawl_raises|].
    split; [done|]. intros p v Hv. by apply elem_of_nil in Hv. }
  set (origin := fun (tr : list Event) (p v : str) =>
    exists t1 t2 response soup a_href joined,
      tr = t1 ++ Get p :: t2 /\
      session_get w t1 USER_AGENT p = inr response /\
      BeautifulSoup w (text response) = inr soup /\
      a_href ∈ find_all_a_href soup /\
      existsb (startswith (strip a_href)) NON_NAVIGABLE = false /\
      urljoin w p (strip a_href) = inr joined /\
      v = normalize_link joined).
  assert (Hext : forall tr fin p v, origin tr p v -> origin (tr ++ fin) p v).
  { intros tr fin p v (t1 & t2 & response & soup & h & joined & -> & Hrest).
    exists t1, (t2 ++ fin), response, soup, h, joined.
    split; [|done]. by rewrite <- app_assoc. }
  set (I := fun st : State =>
    (link_edges None (trace st)).*2 = appends (trace st) /\
    forall p v, (p, v) ∈ link_edges None (trace st) -> origin (trace st) p v).
  destruct (crawl_returns w I start_url max_pages pr Hpr)
    as (st & [Hch Hsrc] & _ & Hend).
  { destruct (initial_state_events w start_url max_pages pr) as (Hp & _ & _ & Ha & _).
    unfold I. rewrite (link_edges_no_events _ None Hp Ha). cbv zeta in Ha.
    rewrite Ha. split; [done|]. intros p v Hin. by apply elem_of_nil in Hin. }
  { intros st x q es Hinv [Hch Hsrc] Hq Hlt Hit.
    destruct (iteration_summary _ _ _ _ _ _ _ _ Hq Hit)
      as (es' & k & Hes & Hp & _).
    unfold I. rewrite trace_run_events. split.
    - rewrite Hes, link_edges_app_pop, link_edges_no_pops, appends_app by done.
      change (appends (Popleft x :: es')) with (appends es').
      rewrite fmap_app, Hch, <- list_fmap_compose. f_equal.
      by rewrite list_fmap_id.
    - intros p v. rewrite Hes at 1.
      rewrite link_edges_app_pop, link_edges_no_pops by done.
      intros [Hin|Hin]%elem_of_app; [by apply Hext, Hsrc|].
      apply list_elem_of_fmap in Hin as (v' & [= -> ->] & Hv').
      assert (Hv : v' ∈ appends es) by (by rewrite Hes).
      destruct (iteration_links _ _ _ _ _ _ _ _ Hit Hv)
        as (response & soup & h & rest & -> & Hans & _ & Hsoup & Hh & Hc).
      apply link_candidate_normal in Hc as (Hnav & joined & Hj & ->).
      exists (trace st ++
              [Popleft x;
               Print (MsgProcessing
                        (Z.of_nat (length (scraped_pages st)) + 1) max_pages x)]),
        rest, response, soup, h, joined.
      split_and!; try done. unfold upto_get. cbn [app].
      by rewrite <- !app_assoc. }
  assert (exists res st',
    returns w start_url max_pages res st' /\
    link_edges None (trace st') = link_edges None (trace st) /\
    appends (trace st') = appends (trace st) /\
    exists fin, trace st' = trace st ++ fin)
    as (res & st' & Hret & Hle & Hap & fin & Hfin).
  { destruct Hend as [[Hret _]|(e & Hret & _)]; eexists _, _;
      (split; [exact Hret|]).
    - split; [apply link_edges_app_print|].
      split; [|by exists [Print MsgCrawlDone]].
      by destruct (emit_print_events MsgCrawlDone st) as (_ & _ & _ & Ha & _).
    - split_and!; [done|done|]. exists []. by rewrite app_nil_r. }
  exists res, st'. split; [exact Hret|]. rewrite Hle, Hap. split; [done|].
  intros p v Hin. rewrite Hfin.
  pose proof (Hext _ fin _ _ (Hsrc p v Hin)) as Hor.
  split; [exact Hor|].
  destruct Hor as (_ & _ & _ & _ & _ & joined & _ & _ & _ & _ & _ & _ & ->).
  apply normalize_link_normal.
Qed.

(** X11. The normal form of a link is stable: normalizing twice is
    normalizing once, a trailing slash or a fragment does not change the
    normal form, and a string with no [#] that does not end with a slash is
    its own normal form. *)
Theorem normalize_link_laws :
  (forall s, normalize_link (normalize_link s) = normalize_link s) /\
  (forall s, normalize_link (s ++ u "/") = normalize_link s) /\
  (forall s fragment, normalize_link (s ++ u "#" ++ fragment) = normalize_link s) /\
  (forall s, 35%N ∉ s -> endswith s (u "/") = false -> normalize_link s = s).
Proof.
  assert (Hfix : forall s, 35%N ∉ s -> endswith s (u "/") = false ->
                           normalize_link s = s).
  { intros s Hs Hend. unfold normalize_link.
    by rewrite split_hash_0_id, rstrip_slash_id. }
  split_and!; [| | |done].
  - intros s. apply Hfix; apply normalize_link_normal.
  - intros s. unfold normalize_link.
    destruct (decide (35%N ∈ s)) as [Hs|Hs].
    + by rewrite split_hash_0_app_hash.
    + rewrite split_hash_0_app_no_hash, (split_hash_0_id s) by done.
      change (split_hash_0 (u "/")) with (u "/"). apply rstrip_slash_snoc.
  - intros s fragment. unfold normalize_link.
    destruct (decide (35%N ∈ s)) as [Hs|Hs].
    + by rewrite split_hash_0_app_hash.
    + rewrite split_hash_0_app_no_hash, (split_hash_0_id s) by done.
      simpl. by rewrite app_nil_r.
Qed.

(** ** A link that cannot be resolved *)

Lemma for_each_app {A} (l1 l2 : list A) (body : A -> M unit) st :
  for_each (l1 ++ l2) body st =
  match for_each l1 body st with
  | (Raise e, st') => (Raise e, st')
  | (_, st') => for_each l2 body st'
  end.
Proof.
  revert st. induction l1 as [|a l1 IH]; intros st; [done|].
  simpl. destruct (body a st) as [[[]| |e] st']; by rewrite ?IH.
Qed.

(** X12. In the loop over the links of a page, an [href] on which
    [urljoin] raises ends the loop: the links before it have been
    enqueued, the links after it are never looked at, and the exception
    leaves the loop with the state as it is then. *)
Theorem bad_href_ends_extraction (w : World) (base_domain current_url : str)
    (before : list str) (href : str) (after : list str) (st st1 : State)
    (e : exn) :
  for_each before (link_body w base_domain current_url) st = (Normal tt, st1) ->
  existsb (startswith (strip href)) NON_NAVIGABLE = false ->
  urljoin w current_url (strip href) = inl e ->
  for_each (before ++ href :: after) (link_body w base_domain current_url) st =
  (Raise e, st1).
Proof.
  intros Hbefore Hnav Hjoin. rewrite for_each_app, Hbefore. simpl.
  unfold link_body. rewrite Hnav. unfold bind, lift. by rewrite Hjoin.
Qed.

(** The page of [LinkFailureExample]: [/b] is enqueued, [http://[] raises,
    [/c] is not looked at. *)
Lemma bad_href_ends_extraction_witness :
  exists st1 e,
    for_each ([u "/b"] ++ u "http://[" :: [u "/c"])
      (link_body LinkFailureExample.site (u "site.test") LinkFailureExample.A)
      {| urls_to_visit := []; seen_urls := {[LinkFailureExample.A]};
         scraped_pages := []; trace := [] |} = (Raise e, st1) /\
    urls_to_visit st1 = [LinkFailureExample.B].
Proof.
  eexists _, _. split.
  - apply bad_href_ends_extraction.
    + vm_compute. reflexivity.
    + reflexivity.
    + vm_compute. reflexivity.
  - reflexivity.
Defined.

(** ** Titles at the edges *)

Lemma lstrip_by_all p s : Forall (fun c => p c = true) s -> lstrip_by p s = [].
Proof. induction 1 as [|c s Hc _ IH]; [done|]. simpl. by rewrite Hc. Qed.

Lemma strip_nil_iff s : strip s = [] <-> Forall (fun c => isspace c = true) s.
Proof.
  split.
  - intros Hs. destruct (strip_spec s) as (pre & post & Heq & Hpre & Hpost & _).
    rewrite Hs in Heq. rewrite Heq. by apply Forall_app.
  - intros Hall. unfold strip. by rewrite lstrip_by_all.
Qed.

(** X13. The title recorded never starts or ends with white space. It is
    the empty string exactly when the title element has a string that is
    not empty and consists of white space only: such a page is recorded
    with an empty title, not with the sentinel. *)
Theorem title_text_edges (title_tag : option Tag) :
  (forall c r, title_text_of title_tag = c :: r -> isspace c = false) /\
  (forall c r, title_text_of title_tag = r ++ [c] -> isspace c = false) /\
  (title_text_of title_tag = [] <->
   exists tag s, title_tag = Some tag /\ tag_string tag = Some s /\
                 s <> [] /\ Forall (fun c => isspace c = true) s).
Proof.
  assert (Hno : (forall c r, NO_TITLE = c :: r -> isspace c = false) /\
                (forall c r, NO_TITLE = r ++ [c] -> isspace c = false)).
  { split; intros c r Heq.
    - by injection Heq as <- _.
    - apply (f_equal last) in Heq. rewrite last_snoc in Heq.
      by injection Heq as <-. }
  destruct Hno as [Hno1 Hno2].
  destruct title_tag as [[[s|]]|]; simpl.
  - destruct s as [|c0 s0].
    + split_and!; [done|done|]. split; [done|].
      by intros (tag & s & [= <-] & [= <-] & Hs & _).
    + destruct (strip_spec (c0 :: s0)) as (_ & _ & _ & _ & _ & Hhd & Hlast).
      split_and!; [done|done|]. rewrite strip_nil_iff. split.
      * intros Hall. by eexists _, _.
      * by intros (tag & s & [= <-] & [= <-] & _ & Hall).
  - split_and!; [done|done|]. split; [done|].
    by intros (tag & s & [= <-] & [=] & _).
  - split_and!; [done|done|]. split; [done|]. by intros (tag & s & [=] & _).
Qed.

(** ** The script *)


